(** * Paddle: [paddle.autograd.jacobian] and the leaky_relu TensorRT
    conversion test

    A shallow embedding of
    - [python/paddle/autograd/functional.py] ([_check_tensors],
      [_stack_tensor_or_return_none], [jacobian]), and
    - [python/paddle/fluid/tests/unittests/ir/inference/test_trt_convert_leaky_relu.py]
      ([sample_program_configs], [sample_predictor_configs]).

    [jacobian] is orchestration over a tensor library and a differentiation
    engine that live elsewhere in Paddle.  Both are interfaces here
    ([TensorLib], [GradEngine]); the function is written against them in
    a state-and-exception monad that threads the engine's world and keeps
    a log of the engine invocations.  The decorator [framework.dygraph_only]
    gates the call on imperative mode: [jacobian] is the body, which is
    what a call in imperative mode runs, and [jacobian_dygraph_only] is
    the body behind the decorator's check. *)

From Stdlib Require Import String ZArith QArith Lia.
From stdpp Require Import base tactics option list.

Set Warnings "-register-all".

Local Open Scope nat_scope.

(** ** Python values *)

(** The values [jacobian] handles: tensors, [None], lists, tuples, and any
    other object (of which only the fact that it is none of the former
    matters). *)
Inductive PyVal (Tensor : Type) : Type :=
| PTensor (t : Tensor)
| PNone
| PList (xs : list (PyVal Tensor))
| PTuple (xs : list (PyVal Tensor))
| PObj (tag : nat).
Arguments PTensor {Tensor} t.
Arguments PNone {Tensor}.
Arguments PList {Tensor} xs.
Arguments PTuple {Tensor} xs.
Arguments PObj {Tensor} tag.

#[global] Instance PTensor_inj {Tensor : Type} :
  Inj (=) (=) (@PTensor Tensor).
Proof. by intros x y [= ->]. Qed.

(** Where a propagated exception was raised. *)
Inductive Origin : Type := FromFunc | FromEngine | FromStack.

(** Exceptions.  [AssertionError] is what an [assert] of functional.py
    raises; [IndexError] and [TypeError] are raised by the interpreter on a
    subscript out of range or an operation on a value of the wrong type;
    [Propagated] carries an exception raised inside [func], [paddle.grad]
    or [paddle.stack]. *)
Inductive Exn (ExtErr : Type) : Type :=
| AssertionError (msg : string)
| IndexError
| TypeError
| Propagated (o : Origin) (e : ExtErr).
Arguments AssertionError {ExtErr} msg.
Arguments IndexError {ExtErr}.
Arguments TypeError {ExtErr}.
Arguments Propagated {ExtErr} o e.

(** The keyword arguments of one call of [paddle.grad]. *)
Record GradCall (Tensor : Type) : Type := mkGradCall {
  gc_output : Tensor;
  gc_inputs : PyVal Tensor;
  gc_create_graph : bool;
  gc_retain_graph : bool;
  gc_allow_unused : bool
}.
Arguments mkGradCall {Tensor}.
Arguments gc_output {Tensor}.
Arguments gc_inputs {Tensor}.
Arguments gc_create_graph {Tensor}.
Arguments gc_retain_graph {Tensor}.
Arguments gc_allow_unused {Tensor}.

(** One logged invocation of the engine: the call and what came back. *)
Record Invocation (Tensor ExtErr : Type) : Type := mkInvocation {
  inv_call : GradCall Tensor;
  inv_outcome : ExtErr + list (PyVal Tensor)
}.
Arguments mkInvocation {Tensor ExtErr}.
Arguments inv_call {Tensor ExtErr}.
Arguments inv_outcome {Tensor ExtErr}.

(** ** The interfaces [jacobian] consumes *)

(** The tensor library: [x.shape], [paddle.reshape(x, shape=[-1])],
    [len(x)], [x[k]] and [paddle.stack(xs, axis=0)]. *)
Class TensorLib (Tensor ExtErr : Type) : Type := {
  shape : Tensor -> list nat;
  reshape_flat : Tensor -> Tensor;
  tensor_len : Tensor -> nat;
  getitem : Tensor -> nat -> Tensor;
  stack : list (PyVal Tensor) -> ExtErr + Tensor
}.

(** The differentiation engine: [paddle.grad(output, inputs, create_graph,
    retain_graph, allow_unused)], which may change its world (the
    computation graph) and may raise. *)
Class GradEngine (Tensor World ExtErr : Type) : Type := {
  grad : GradCall Tensor -> World -> (ExtErr + list (PyVal Tensor)) * World
}.

(** Number of scalar elements of a tensor of the given shape. *)
Definition numel_of (s : list nat) : nat := foldr Nat.mul 1 s.

Section Jacobian.
Context {Tensor World ExtErr : Type}.
Context `{!TensorLib Tensor ExtErr, !GradEngine Tensor World ExtErr}.

Local Abbreviation Val := (PyVal Tensor).
Local Abbreviation Err := (Exn ExtErr).
Local Abbreviation Call := (GradCall Tensor).
Local Abbreviation Inv := (Invocation Tensor ExtErr).

(** A Python callable: positional arguments in, a value or an exception
    out, with an effect on the world. *)
Definition PyFunc : Type := list Val -> World -> (ExtErr + Val) * World.

Definition numel (t : Tensor) : nat := numel_of (shape t).

(** *** State and exceptions *)

Record St : Type := mkSt { world : World; trace : list Inv }.

Definition M (A : Type) : Type := St -> (Err + A) * St.

Definition ret {A} (a : A) : M A := fun s => (inr a, s).
Definition raise {A} (e : Err) : M A := fun s => (inl e, s).
Definition bind {A B} (m : M A) (k : A -> M B) : M B :=
  fun s => match m s with
           | (inl e, s') => (inl e, s')
           | (inr a, s') => k a s'
           end.
Definition lift {A} (r : Err + A) : M A := fun s => (r, s).

Local Notation "'let*' x ':=' m 'in' k" := (bind m (fun x => k))
  (at level 10, x name, m at level 100, k at level 200).

(** [for x in xs: body], the loop-carried variables being [acc]. *)
Fixpoint for_each {A S} (xs : list A) (body : A -> S -> M S) (acc : S) : M S :=
  match xs with
  | [] => ret acc
  | x :: xs' => let* acc' := body x acc in for_each xs' body acc'
  end.

(** [tuple(f(x) for x in xs)] for an [f] that may raise. *)
Fixpoint try_map {A B} (f : A -> Err + B) (xs : list A) : Err + list B :=
  match xs with
  | [] => inr []
  | x :: xs' =>
      match f x with
      | inl e => inl e
      | inr y => match try_map f xs' with
                 | inl e => inl e
                 | inr ys => inr (y :: ys)
                 end
      end
  end.

(** Calling [func] on the unpacked argument list. *)
Definition call_func (func : PyFunc) (args : list Val) : M Val :=
  fun s => match func args (world s) with
           | (inl e, w) => (inl (Propagated FromFunc e), mkSt w (trace s))
           | (inr v, w) => (inr v, mkSt w (trace s))
           end.

(** [paddle.grad(...)]; the invocation is appended to the log. *)
Definition call_grad (c : Call) : M (list Val) :=
  fun s => match grad c (world s) with
           | (inl e, w) =>
               (inl (Propagated FromEngine e),
                mkSt w (trace s ++ [mkInvocation c (inl e)]))
           | (inr row, w) =>
               (inr row, mkSt w (trace s ++ [mkInvocation c (inr row)]))
           end.

(** *** Helpers on values *)

(** [isinstance(v, paddle.Tensor)] *)
Definition is_tensor (v : Val) : bool :=
  match v with PTensor _ => true | _ => false end.

(** The elements of a list or tuple. *)
Definition seq_items (v : Val) : list Val :=
  match v with PList xs | PTuple xs => xs | _ => [] end.

(** [xs[j]] on a Python list. *)
Definition py_index {A} (xs : list A) (j : nat) : Err + A :=
  match xs !! j with Some x => inr x | None => inl IndexError end.

(** [paddle.reshape(v, shape=[-1])] on a Python value. *)
Definition py_reshape_flat (v : Val) : Err + Tensor :=
  match v with PTensor t => inr (reshape_flat t) | _ => inl TypeError end.

(** *** functional.py *)

Definition _check_tensors (in_out_list : Val) (name : string) : Err + Val :=
  match in_out_list with
  | PNone => inl (AssertionError (name ++ " should not be None")%string)
  | PList xs | PTuple xs =>
      if length xs =? 0
      then inl (AssertionError (name ++ " connot be empyt")%string)
      else if forallb is_tensor xs
           then inr in_out_list
           else inl (AssertionError
                       ("Elements of " ++ name ++ " must be paddle.Tensor")%string)
  | PTensor _ => inr (PList [in_out_list])
  | PObj _ =>
      inl (AssertionError (name ++ " must be Tensor or list of Tensor")%string)
  end.

Definition _stack_tensor_or_return_none (origin_list : list Val) : Err + Val :=
  match origin_list with
  | [] => inl (AssertionError "Can't not stack an empty list"%string)
  | first :: _ =>
      if is_tensor first
      then match stack origin_list with
           | inl e => inl (Propagated FromStack e)
           | inr t => inr (PTensor t)
           end
      else inr PNone
  end.

(** [paddle.reshape(row_k[j], shape=[-1]) if isinstance(row_k[j],
    paddle.Tensor) else None] *)
Definition flat_row_entry (v : Val) : Val :=
  match v with PTensor t => PTensor (reshape_flat t) | _ => PNone end.

(** The [for j in range(fin_size)] loop: [jac_i[j].append(...)]. *)
Definition append_row (fin_size : nat) (row_k : list Val)
    (jac_i : list (list Val)) : M (list (list Val)) :=
  for_each (seq 0 fin_size) (fun j jac_i =>
    let* x := lift (py_index row_k j) in
    ret (alter (fun col => col ++ [flat_row_entry x]) j jac_i)) jac_i.

(** The [for k in range(len(flat_output))] loop. *)
Definition collect_rows (inputs : Val) (fin_size : nat)
    (create_graph allow_unused : bool) (flat_output : Tensor)
    (jac_i : list (list Val)) : M (list (list Val)) :=
  for_each (seq 0 (tensor_len flat_output)) (fun k jac_i =>
    let* row_k := call_grad (mkGradCall (getitem flat_output k) inputs
                                        create_graph true allow_unused) in
    append_row fin_size row_k jac_i) jac_i.


(** The body of [for i, flat_output in enumerate(flat_outputs)]. *)
Definition jacobian_of_output (inputs : Val) (fin_size : nat)
    (create_graph allow_unused : bool) (flat_output : Tensor)
    (jacobian : list (list Val)) : M (list (list Val)) :=
  let jac_i := replicate fin_size [] in
  let* jac_i := collect_rows inputs fin_size create_graph allow_unused
                             flat_output jac_i in
  let* blocks := lift (try_map _stack_tensor_or_return_none jac_i) in
  ret (jacobian ++ [blocks]).

(** The four-way [if] at the end of [jacobian]; the tuple of tuples is
    kept as a list of lists until it is returned. *)
Definition collapse (fin_size fout_size : nat) (jacobian : list (list Val))
    : Err + Val :=
  if (fin_size =? 1) && (fout_size =? 1) then
    match py_index jacobian 0 with
    | inl e => inl e
    | inr jac_0 => py_index jac_0 0
    end
  else if (fin_size =? 1) && negb (fout_size =? 1) then
    match try_map (fun i => match py_index jacobian i with
                            | inl e => inl e
                            | inr jac_i => py_index jac_i 0
                            end) (seq 0 fout_size) with
    | inl e => inl e
    | inr bs => inr (PTuple bs)
    end
  else if negb (fin_size =? 1) && (fout_size =? 1) then
    match py_index jacobian 0 with
    | inl e => inl e
    | inr jac_0 => inr (PTuple jac_0)
    end
  else inr (PTuple (map PTuple jacobian)).

(** The table of blocks, [jacobian[i][j]], before it is collapsed. *)
Definition jacobian_table (func : PyFunc) (inputs : Val)
    (create_graph allow_unused : bool) : M (nat * nat * list (list Val)) :=
  let* inputs := lift (_check_tensors inputs "inputs"%string) in
  let* out := call_func func (seq_items inputs) in
  let* outputs := lift (_check_tensors out "outputs"%string) in
  let fin_size := length (seq_items inputs) in
  let fout_size := length (seq_items outputs) in
  let* flat_outputs := lift (try_map py_reshape_flat (seq_items outputs)) in
  let* jacobian := for_each flat_outputs
                     (jacobian_of_output inputs fin_size create_graph
                                         allow_unused) [] in
  ret (fin_size, fout_size, jacobian).

Definition jacobian (func : PyFunc) (inputs : Val)
    (create_graph allow_unused : bool) : M Val :=
  let* table := jacobian_table func inputs create_graph allow_unused in
  let '(fin_size, fout_size, jacobian) := table in
  lift (collapse fin_size fout_size jacobian).

(** *** Vocabulary for the statements *)

(** What the [j] loop appends to [jac_i[j]] over the rows [R] that the
    engine returned for one output: its entry [k] is row [k]'s gradient
    for input [j], flattened, or [None]. *)
Definition column (j : nat) (R : list (list Val)) : list Val :=
  (fun row => flat_row_entry (default PNone (row !! j))) <$> R.

Definition columns (q : nat) (R : list (list Val)) : list (list Val) :=
  (fun j => column j R) <$> seq 0 q.

(** One step of the [j] loop on a row that is long enough. *)
Definition add_entry (row : list Val) (acc : list (list Val)) (j : nat)
    : list (list Val) :=
  alter (fun col => col ++ [flat_row_entry (default PNone (row !! j))]) j acc.

(** The call [jacobian] makes for entry [k] of a flattened output. *)
Definition grad_call (inputs : Val) (create_graph allow_unused : bool)
    (flat_output : Tensor) (k : nat) : Call :=
  mkGradCall (getitem flat_output k) inputs create_graph true allow_unused.

(** The invocations [jacobian] makes for one flattened output when the
    engine answers with the rows [R]. *)
Definition invocations_for (inputs : Val) (create_graph allow_unused : bool)
    (flat_output : Tensor) (R : list (list Val)) : list Inv :=
  imap (fun k row =>
          mkInvocation (grad_call inputs create_graph allow_unused
                                  flat_output k)
                       (inr row)) R.

(** The invocations of a whole call: those for each output in turn,
    [RR] holding the rows returned for each output. *)
Definition engine_log (inputs : Val) (create_graph allow_unused : bool)
    (outs : list Tensor) (RR : list (list (list Val))) : list Inv :=
  concat (zip_with (fun t R => invocations_for inputs create_graph
                                 allow_unused (reshape_flat t) R) outs RR).

(** An invocation that the engine really answers that way in some
    world. *)
Definition genuine (i : Inv) : Prop :=
  exists w w', grad (inv_call i) w = (inv_outcome i, w').

(** An invocation that passes the whole of [inputs], the caller's
    [create_graph] and [allow_unused], and [retain_graph=True]. *)
Definition flags_ok (inputs : Val) (create_graph allow_unused : bool)
    (i : Inv) : Prop :=
  gc_inputs (inv_call i) = inputs /\
  gc_create_graph (inv_call i) = create_graph /\
  gc_retain_graph (inv_call i) = true /\
  gc_allow_unused (inv_call i) = allow_unused.

(** From state [s] to state [s'] the log grew by invocations that all
    satisfy [P]. *)
Definition log_extends (P : Inv -> Prop) (s s' : St) : Prop :=
  exists new, trace s' = trace s ++ new /\ Forall P new.

(** The engine can answer a call on [inputs] with fewer than [q]
    entries. *)
Definition short_row (inputs : Val) (q : nat) : Prop :=
  exists c w w' row,
    gc_inputs c = inputs /\ grad c w = (inr row, w') /\ length row < q.

(** What a successful pass over one output [t] leaves: one returned row
    per entry of the flattened output, each with an entry for every
    input, and the blocks stacked from their columns. *)
Definition output_run (q : nat) (t : Tensor) (R : list (list Val))
    (blocks : list Val) : Prop :=
  length R = tensor_len (reshape_flat t) /\
  Forall (fun row => forall j, j < q -> j < length row) R /\
  try_map _stack_tensor_or_return_none (columns q R) = inr blocks.

(** The [(o, j)] slot of a result for [p] outputs and [q] inputs, read
    the way the collapsing rule lays it out. *)
Definition result_slot (p q : nat) (res : Val) (o j : nat) : option Val :=
  if (q =? 1) && (p =? 1) then
    if (o =? 0) && (j =? 0) then Some res else None
  else if q =? 1 then
    if j =? 0 then seq_items res !! o else None
  else if p =? 1 then
    if o =? 0 then seq_items res !! j else None
  else
    match seq_items res !! o with
    | Some r => seq_items r !! j
    | None => None
    end.

(** The entry of [row] for input number [j], which is [x], when the row
    was returned for an entry of output [t]: a gradient of the shape of
    [x] if [x] takes part in [t], and [None] otherwise, which takes
    [allow_unused]. *)
Definition entry_ok (reachable : Tensor -> Tensor -> bool)
    (allow_unused : bool) (t x : Tensor) (j : nat) (row : list Val) : Prop :=
  exists g, row !! j = Some g /\
    if reachable t x
    then exists tg, g = PTensor tg /\ shape tg = shape x
    else g = PNone /\ allow_unused = true.

(** The validation failures: a list or tuple without elements, a list or
    tuple with an element that is not a tensor, and a value that is
    neither a tensor nor a list or tuple. *)
Definition empty_collection (v : Val) : Prop :=
  v = PList [] \/ v = PTuple [].

Definition has_non_tensor (v : Val) : Prop :=
  exists x, x ∈ seq_items v /\ is_tensor x = false.

Definition not_a_collection (v : Val) : Prop :=
  v = PNone \/ exists tag, v = PObj tag.

(** The ways a call of [jacobian] in state [s] can raise. *)
Inductive jacobian_failure (func : PyFunc) (inputs : Val) (s : St)
    : Err -> Prop :=
| fail_inputs e :
    _check_tensors inputs "inputs" = inl e ->
    jacobian_failure func inputs s e
| fail_func ins x w1 :
    _check_tensors inputs "inputs" = inr ins ->
    func (seq_items ins) (world s) = (inl x, w1) ->
    jacobian_failure func inputs s (Propagated FromFunc x)
| fail_outputs ins out w1 e :
    _check_tensors inputs "inputs" = inr ins ->
    func (seq_items ins) (world s) = (inr out, w1) ->
    _check_tensors out "outputs" = inl e ->
    jacobian_failure func inputs s e
| fail_engine ins out w1 outs x :
    _check_tensors inputs "inputs" = inr ins ->
    func (seq_items ins) (world s) = (inr out, w1) ->
    _check_tensors out "outputs" = inr outs ->
    jacobian_failure func inputs s (Propagated FromEngine x)
| fail_stack ins out w1 outs x :
    _check_tensors inputs "inputs" = inr ins ->
    func (seq_items ins) (world s) = (inr out, w1) ->
    _check_tensors out "outputs" = inr outs ->
    jacobian_failure func inputs s (Propagated FromStack x)
| fail_short_row ins out w1 outs :
    _check_tensors inputs "inputs" = inr ins ->
    func (seq_items ins) (world s) = (inr out, w1) ->
    _check_tensors out "outputs" = inr outs ->
    short_row ins (length (seq_items ins)) ->
    jacobian_failure func inputs s IndexError
| fail_empty_output ins out w1 outs t :
    _check_tensors inputs "inputs" = inr ins ->
    func (seq_items ins) (world s) = (inr out, w1) ->
    _check_tensors out "outputs" = inr outs ->
    PTensor t ∈ seq_items outs ->
    tensor_len (reshape_flat t) = 0 ->
    jacobian_failure func inputs s
      (AssertionError "Can't not stack an empty list").

(** A block is a tensor or the absence marker. *)
Definition is_block (v : Val) : bool :=
  match v with PTensor _ | PNone => true | _ => false end.


(** The calls of a complete pass over the outputs [outs], in the order
    [jacobian] makes them: for each output in turn, one per entry of the
    flattened output. *)
Definition schedule (inputs : Val) (create_graph allow_unused : bool)
    (outs : list Tensor) : list Call :=
  concat ((fun t => grad_call inputs create_graph allow_unused (reshape_flat t)
                      <$> seq 0 (tensor_len (reshape_flat t))) <$> outs).

(** Whether a logged invocation returned rather than raised. *)
Definition returned (i : Inv) : bool :=
  match inv_outcome i with inr _ => true | inl _ => false end.

(** The exception a computation ended with, if any. *)
Definition err_of {A} (r : Err + A) : option Err :=
  match r with inl e => Some e | inr _ => None end.

(** A log in which nothing follows an invocation that raised: either
    every invocation returned, and the exception (if any) is not one of the
    engine; or all but the last returned, the last raised, and the
    exception is the one it raised. *)
Definition fail_fast (new : list Inv) (err : option Err) : Prop :=
  (Forall (fun i => returned i = true) new /\
   forall x, err <> Some (Propagated FromEngine x)) \/
  (exists pre c x,
     new = pre ++ [mkInvocation c (inl x)] /\
     Forall (fun i => returned i = true) pre /\
     err = Some (Propagated FromEngine x)).

(** Two computations that, started in the same world, end with the same
    result and the same world. *)
Definition same_outcome {A} (m1 m2 : M A) : Prop :=
  forall s1 s2, world s1 = world s2 ->
    fst (m1 s1) = fst (m2 s2) /\ world (snd (m1 s1)) = world (snd (m2 s2)).

(** An engine that reads its [inputs] argument through its elements only,
    whether they come in a list or in a tuple. *)
Definition reads_items_only : Prop :=
  forall (c c' : Call) (w : World),
    gc_output c = gc_output c' ->
    seq_items (gc_inputs c) = seq_items (gc_inputs c') ->
    gc_create_graph c = gc_create_graph c' ->
    gc_retain_graph c = gc_retain_graph c' ->
    gc_allow_unused c = gc_allow_unused c' ->
    grad c w = grad c' w.

End Jacobian.

Arguments PyFunc : clear implicits.
Arguments St : clear implicits.
Arguments M : clear implicits.
Arguments reads_items_only Tensor World ExtErr {_}.

(** ** The decorator *)

(** Modelled from the spec: [framework.dygraph_only] and the mode it tests
    are not among the sources.  The docstring of [jacobian] says that the
    API is only available in imperative mode: the decorator asserts that
    mode before the body runs, and outside it an assertion error is raised
    and nothing else happens.  The text of its message is a parameter. *)
Class Framework (World : Type) : Type := {
  in_dygraph_mode : World -> bool;
  dygraph_only_msg : string -> string
}.

Section Decorator.
Context {Tensor World ExtErr : Type}.
Context `{!TensorLib Tensor ExtErr, !GradEngine Tensor World ExtErr}.
Context `{!Framework World}.

Definition dygraph_only {A} (name : string)
    (body : M Tensor World ExtErr A) : M Tensor World ExtErr A :=
  fun s => if in_dygraph_mode (world s)
           then body s
           else (inl (AssertionError (dygraph_only_msg name)), s).

(** [jacobian] as a caller sees it, behind [@framework.dygraph_only]. *)
Definition jacobian_dygraph_only (func : PyFunc Tensor World ExtErr)
    (inputs : PyVal Tensor) (create_graph allow_unused : bool)
    : M Tensor World ExtErr (PyVal Tensor) :=
  dygraph_only "jacobian" (jacobian func inputs create_graph allow_unused).

End Decorator.

(** ** Contracts of the interfaces *)

(** Modelled from the spec: the tensor library itself (paddle.reshape,
    paddle.stack, Tensor.__len__) is not among the sources.  A flattened
    tensor is one-dimensional with as many entries as the tensor has
    scalars, its length is that number, and stacking [m] tensors of one
    shape [s] along a new first axis succeeds and gives shape [m :: s];
    stacking anything else raises. *)
Class TensorLibSpec {Tensor ExtErr : Type} `{!TensorLib Tensor ExtErr} : Prop := {
  shape_reshape_flat (t : Tensor) :
    shape (reshape_flat t) = [numel t];
  tensor_len_flat (t : Tensor) :
    tensor_len (reshape_flat t) = numel t;
  stack_shape (vs : list (PyVal Tensor)) (B : Tensor) :
    stack vs = inr B ->
    exists (ts : list Tensor) (s : list nat),
      vs = PTensor <$> ts /\ Forall (fun t => shape t = s) ts /\
      shape B = length ts :: s;
  stack_total (ts : list Tensor) (s : list nat) :
    ts <> [] -> Forall (fun t => shape t = s) ts ->
    exists B, stack (PTensor <$> ts) = inr B
}.
Arguments TensorLibSpec Tensor ExtErr {_}.

(** Modelled from the spec: the differentiation engine (paddle.grad) is not
    among the sources.  [reachable out x] says that input [x] takes part in
    computing the tensor [out].  Flattening an output and picking one of
    its entries keeps the inputs it depends on.  A call that returns gives
    one entry per input: for an input that takes part, a gradient tensor
    of that input's shape; for one that does not, [None], which is only
    possible when [allow_unused] is set, the call raising otherwise. *)
Class GradEngineSpec {Tensor World ExtErr : Type}
    `{!TensorLib Tensor ExtErr, !GradEngine Tensor World ExtErr}
    (reachable : Tensor -> Tensor -> bool) : Prop := {
  reachable_getitem_flat (out x : Tensor) (k : nat) :
    k < tensor_len (reshape_flat out) ->
    reachable (getitem (reshape_flat out) k) x = reachable out x;
  grad_rows (c : GradCall Tensor) (w w' : World) (row : list (PyVal Tensor)) :
    grad c w = (inr row, w') ->
    Forall2 (fun x g => forall tx, x = PTensor tx ->
               if reachable (gc_output c) tx
               then exists tg, g = PTensor tg /\ shape tg = shape tx
               else g = PNone /\ gc_allow_unused c = true)
            (seq_items (gc_inputs c)) row
}.
Arguments GradEngineSpec Tensor World ExtErr {_ _} reachable.

(** ** A symbolic tensor library and reverse-mode engine

    Modelled from the spec: an executable instance of the two interfaces,
    standing for the tensor library and for paddle.grad, neither of which
    is among the sources.  A tensor is the expression that computed it;
    its entries are integers kept in row-major order (on the small integer
    entries used below, float32 arithmetic is exact and agrees with them).
    The engine differentiates by propagating a cotangent from the
    differentiated scalar back to the leaves. *)
Module Sym.

Inductive tensor : Type :=
| Leaf (name : nat) (shp : list nat) (data : list Z)
    (* a tensor made by the user, with [stop_gradient = False] *)
| Const (shp : list nat) (data : list Z)
    (* a tensor outside every graph *)
| MatMul (a b : tensor)
| Mul (a b : tensor)
| Flat (a : tensor)
| Item (a : tensor) (k : nat).

Definition dim (i : nat) (s : list nat) : nat := nth i s 0.

Fixpoint shape_of (t : tensor) : list nat :=
  match t with
  | Leaf _ s _ | Const s _ => s
  | MatMul a b => [dim 0 (shape_of a); dim 1 (shape_of b)]
  | Mul a _ => shape_of a
  | Flat a => [numel_of (shape_of a)]
  | Item _ _ => [1]
  end.

Definition entry (d : list Z) (i : nat) : Z := nth i d 0%Z.

(** [m]-by-[k] times [k]-by-[n], all row-major. *)
Definition matmul_data (m k n : nat) (a b : list Z) : list Z :=
  flat_map (fun i =>
    map (fun j =>
      fold_right Z.add 0%Z
        (map (fun l => (entry a (i * k + l) * entry b (l * n + j))%Z)
             (seq 0 k)))
      (seq 0 n))
    (seq 0 m).

(** The transpose of an [m]-by-[n] matrix. *)
Definition transpose_data (m n : nat) (a : list Z) : list Z :=
  flat_map (fun j => map (fun i => entry a (i * n + j)) (seq 0 m)) (seq 0 n).

Definition one_hot (n k : nat) (v : Z) : list Z :=
  map (fun i => if i =? k then v else 0%Z) (seq 0 n).

Fixpoint data_of (t : tensor) : list Z :=
  match t with
  | Leaf _ _ d | Const _ d => d
  | MatMul a b =>
      matmul_data (dim 0 (shape_of a)) (dim 1 (shape_of a))
                  (dim 1 (shape_of b)) (data_of a) (data_of b)
  | Mul a b => zip_with Z.mul (data_of a) (data_of b)
  | Flat a => data_of a
  | Item a k => [entry (data_of a) k]
  end.

(** Whether the leaf called [name] takes part in computing [t]. *)
Fixpoint occurs (name : nat) (t : tensor) : bool :=
  match t with
  | Leaf n _ _ => n =? name
  | Const _ _ => false
  | MatMul a b | Mul a b => occurs name a || occurs name b
  | Flat a | Item a _ => occurs name a
  end.

Definition reachable (out x : tensor) : bool :=
  match x with Leaf n _ _ => occurs n out | _ => false end.

Definition add_grad (x y : option (list Z)) : option (list Z) :=
  match x, y with
  | Some a, Some b => Some (zip_with Z.add a b)
  | Some a, None => Some a
  | None, _ => y
  end.

(** Reverse mode: the gradient, with respect to the leaf [name], of the
    scalar product of [t] with the cotangent [cot]; [None] when the leaf
    does not take part in [t]. *)
Fixpoint backward (t : tensor) (cot : list Z) (name : nat) : option (list Z) :=
  match t with
  | Leaf n _ _ => if n =? name then Some cot else None
  | Const _ _ => None
  | MatMul a b =>
      let m := dim 0 (shape_of a) in
      let k := dim 1 (shape_of a) in
      let n := dim 1 (shape_of b) in
      add_grad
        (backward a (matmul_data m n k cot (transpose_data k n (data_of b))) name)
        (backward b (matmul_data k m n (transpose_data m k (data_of a)) cot) name)
  | Mul a b =>
      add_grad (backward a (zip_with Z.mul cot (data_of b)) name)
               (backward b (zip_with Z.mul cot (data_of a)) name)
  | Flat a => backward a cot name
  | Item a k =>
      backward a (one_hot (numel_of (shape_of a)) k (entry cot 0)) name
  end.

Definition unused_msg : string :=
  "One of the differentiated Tensors appears to not have been used in the graph"%string.

(** The gradient of the scalar [target] for one element of [inputs].
    The gradient is returned as a tensor outside every graph, whatever
    [create_graph] is. *)
Definition grad_one (target : tensor) (allow_unused : bool)
    (x : PyVal tensor) : string + PyVal tensor :=
  match x with
  | PTensor (Leaf n s _) =>
      match backward target [1%Z] n with
      | Some g => inr (PTensor (Const s g))
      | None => if allow_unused then inr PNone else inl unused_msg
      end
  | PTensor _ => if allow_unused then inr PNone else inl unused_msg
  | _ => inl "inputs must be Tensors"%string
  end.

Fixpoint grad_all (target : tensor) (allow_unused : bool)
    (xs : list (PyVal tensor)) : string + list (PyVal tensor) :=
  match xs with
  | [] => inr []
  | x :: xs' =>
      match grad_one target allow_unused x with
      | inl e => inl e
      | inr g => match grad_all target allow_unused xs' with
                 | inl e => inl e
                 | inr gs => inr (g :: gs)
                 end
      end
  end.

Definition shape_eqb (s1 s2 : list nat) : bool :=
  bool_decide (s1 = s2).

Definition has_shape (s : list nat) (v : PyVal tensor) : bool :=
  match v with PTensor t => shape_eqb (shape_of t) s | _ => false end.

Definition data_of_val (v : PyVal tensor) : list Z :=
  match v with PTensor t => data_of t | _ => [] end.

(** [paddle.stack(vs, axis=0)] *)
Definition stack_sym (vs : list (PyVal tensor)) : string + tensor :=
  match vs with
  | PTensor t0 :: _ =>
      if forallb (has_shape (shape_of t0)) vs
      then inr (Const (length vs :: shape_of t0) (flat_map data_of_val vs))
      else inl "stack: the inputs must be tensors of one shape"%string
  | _ => inl "stack: the inputs must be tensors of one shape"%string
  end.

#[export] Instance sym_lib : TensorLib tensor string := {|
  shape := shape_of;
  reshape_flat := Flat;
  tensor_len := fun t => dim 0 (shape_of t);
  getitem := Item;
  stack := stack_sym
|}.

#[export] Instance sym_engine : GradEngine tensor unit string := {|
  grad := fun c w =>
    (grad_all (gc_output c) (gc_allow_unused c) (seq_items (gc_inputs c)), w)
|}.


Definition dygraph_msg (name : string) : string :=
  ("We only support '" ++ name ++
   "()' in dynamic graph mode, please call 'paddle.disable_static()' to enter dynamic graph mode.")%string.

(** The symbolic world is in imperative mode. *)
#[export] Instance sym_framework : Framework unit := {|
  in_dygraph_mode := fun _ => true;
  dygraph_only_msg := dygraph_msg
|}.

(** The same world in static mode; passed by name where it is used. *)
Definition static_framework : Framework unit := {|
  in_dygraph_mode := fun _ => false;
  dygraph_only_msg := dygraph_msg
|}.

Definition st0 : St tensor unit string := mkSt tt [].

(** The 2-by-2 tensors of the docstring examples. *)
Definition ones22 (name : nat) : tensor := Leaf name [2; 2] [1; 1; 1; 1]%Z.
Definition twos22 (name : nat) : tensor := Leaf name [2; 2] [2; 2; 2; 2]%Z.

(** [def func(x): return paddle.matmul(x, x)] *)
Definition func_square : PyFunc tensor unit string :=
  fun args w =>
    match args with
    | [PTensor x] => (inr (PTensor (MatMul x x)), w)
    | _ => (inl "TypeError"%string, w)
    end.

(** [def func(x, y): return paddle.matmul(x, y)] *)
Definition func_matmul : PyFunc tensor unit string :=
  fun args w =>
    match args with
    | [PTensor x; PTensor y] => (inr (PTensor (MatMul x y)), w)
    | _ => (inl "TypeError"%string, w)
    end.

(** [def func(x, y): return paddle.matmul(x, y), x * x] *)
Definition func_pair : PyFunc tensor unit string :=
  fun args w =>
    match args with
    | [PTensor x; PTensor y] =>
        (inr (PTuple [PTensor (MatMul x y); PTensor (Mul x x)]), w)
    | _ => (inl "TypeError"%string, w)
    end.

(** A function whose result has no elements. *)
Definition func_empty : PyFunc tensor unit string :=
  fun args w => (inr (PTensor (Const [0] [])), w).

(** The arguments and the results of the third docstring example. *)
Definition inputs_xy : PyVal tensor :=
  PList [PTensor (ones22 0); PTensor (twos22 1)].

Definition outputs_pair : PyVal tensor :=
  PTuple [PTensor (MatMul (ones22 0) (twos22 1));
          PTensor (Mul (ones22 0) (ones22 0))].

Definition jacobian_pair : PyVal tensor :=
  PTuple
    [PTuple
       [PTensor (Const [4; 4] [2; 2; 0; 0; 2; 2; 0; 0;
                               0; 0; 2; 2; 0; 0; 2; 2]%Z);
        PTensor (Const [4; 4] [1; 0; 1; 0; 0; 1; 0; 1;
                               1; 0; 1; 0; 0; 1; 0; 1]%Z)];
     PTuple
       [PTensor (Const [4; 4] [2; 0; 0; 0; 0; 2; 0; 0;
                               0; 0; 2; 0; 0; 0; 0; 2]%Z);
        PNone]].

End Sym.

(** ** test_trt_convert_leaky_relu.py *)

Module LeakyRelu.

(** Python floats written as literals in the test, kept as the
    rationals they denote. *)
Inductive AttrVal : Type := AFloat (x : Q) | ABool (b : bool).

(** A dict with string keys, in insertion order. *)
Definition Dict (V : Type) : Type := list (string * V).

(** One entry of [ops_config]. *)
Record OpsConfigEntry : Type := mkOpsConfigEntry {
  op_type : string;
  op_inputs : Dict (list string);
  op_outputs : Dict (list string);
  op_attrs : Dict AttrVal
}.

(** [np.ones(shape).astype(np.float32)] *)
Record NdArray : Type := mkNdArray { arr_shape : list nat; arr_fill : Q }.

Record TensorConfig : Type := mkTensorConfig { data_gen : unit -> NdArray }.

Inductive PrecisionType : Type := Float32 | Half | Int8.

(** [self.dynamic_shape] *)
Record DynamicShape : Type := mkDynamicShape {
  min_input_shape : Dict (list nat);
  max_input_shape : Dict (list nat);
  opt_input_shape : Dict (list nat)
}.

(** The attributes of [self] that the test writes: [self.trt_param.precision]
    and [self.dynamic_shape]. *)
Record TestState : Type := mkTestState {
  trt_precision : PrecisionType;
  dynamic_shape : DynamicShape
}.

(** The third component of a yielded triple: [1e-5] or [(1e-5, 1e-5)]. *)
Inductive Tolerance : Type := Tol (x : Q) | TolPair (x y : Q).

Definition alphas : list Q := [1 # 50; 1 # 1; 100 # 1; -1 # 1; 0 # 1]%Q.
Definition X_scales : list Q := [1 # 1; 100 # 1; 1 # 100; -1 # 10; 0 # 1]%Q.
Definition tol_1e_5 : Q := (1 # 100000)%Q.

Section Harness.
(** The base class TrtLayerAutoScanTest is not among the sources: its
    methods [generate_op_config] and [create_inference_config], and
    the attribute [attrs] of the operator configurations it builds,
    are parameters. *)
Context {OpConfig InferenceConfig : Type}.
Variable generate_op_config : list OpsConfigEntry -> list OpConfig.
Variable attrs_of : OpConfig -> Dict AttrVal.
Variable create_inference_config : TestState -> InferenceConfig.

Record ProgramConfig : Type := mkProgramConfig {
  ops : list OpConfig;
  weights : Dict TensorConfig;
  inputs : Dict TensorConfig;
  outputs : list string
}.

Definition is_program_valid (program_config : ProgramConfig) : bool := true.

Definition generate_input1 (attrs : list (Dict AttrVal)) : NdArray :=
  mkNdArray [1; 3; 64; 64] (1 # 1)%Q.

(** The body of the two nested loops of [sample_program_configs]: the
    program configuration yielded for one [alpha] and one [X_scale]. *)
Definition program_config_for (alpha X_scale : Q) : ProgramConfig :=
  let dics := [[("alpha", AFloat alpha);
                ("use_mkldnn", ABool true);
                ("enable_int8", ABool true);
                ("X_scale", AFloat X_scale)]%string] in
  let ops_config :=
    [mkOpsConfigEntry "leaky_relu"
                      [("X", ["input_data"])]%string
                      [("Out", ["y_data"])]%string
                      (default [] (dics !! 0))] in
  let ops := generate_op_config ops_config in
  mkProgramConfig ops []
    [("input_data"%string,
      mkTensorConfig (fun _ => generate_input1 dics))]
    ["y_data"%string].

(** The generator, as the list of what it yields. *)
Definition sample_program_configs : list ProgramConfig :=
  flat_map (fun alpha =>
    map (fun X_scale => program_config_for alpha X_scale) X_scales)
    alphas.

Definition generate_dynamic_shape (attrs : list (Dict AttrVal))
    (self : TestState) : TestState :=
  mkTestState (trt_precision self)
    (mkDynamicShape [("input_data"%string, [1; 3; 32; 32])]
                    [("input_data"%string, [4; 3; 64; 64])]
                    [("input_data"%string, [4; 3; 64; 64])]).

Definition clear_dynamic_shape (self : TestState) : TestState :=
  mkTestState (trt_precision self) (mkDynamicShape [] [] []).

Definition generate_trt_nodes_num (attrs : list (Dict AttrVal))
    (dynamic_shape : bool) : nat * nat := (1, 2).

Definition set_precision (p : PrecisionType) (self : TestState) : TestState :=
  mkTestState p (dynamic_shape self).

(** The generator, as the list of what it yields together with the
    state it leaves [self] in. *)
Definition sample_predictor_configs (self : TestState)
    (program_config : ProgramConfig)
    : list (InferenceConfig * (nat * nat) * Tolerance) * TestState :=
  let attrs := attrs_of <$> ops program_config in
  (* for static_shape *)
  let self := clear_dynamic_shape self in
  let self := set_precision Float32 self in
  let y1 := (create_inference_config self,
             generate_trt_nodes_num attrs false, Tol tol_1e_5) in
  let self := set_precision Half self in
  let y2 := (create_inference_config self,
             generate_trt_nodes_num attrs false, TolPair tol_1e_5 tol_1e_5) in
  let self := set_precision Int8 self in
  let y3 := (create_inference_config self,
             generate_trt_nodes_num attrs false, TolPair tol_1e_5 tol_1e_5) in
  (* for dynamic_shape *)
  let self := generate_dynamic_shape attrs self in
  let self := set_precision Float32 self in
  let y4 := (create_inference_config self,
             generate_trt_nodes_num attrs true, Tol tol_1e_5) in
  let self := set_precision Half self in
  let y5 := (create_inference_config self,
             generate_trt_nodes_num attrs true, TolPair tol_1e_5 tol_1e_5) in
  let self := set_precision Int8 self in
  let y6 := (create_inference_config self,
             generate_trt_nodes_num attrs true, TolPair tol_1e_5 tol_1e_5) in
  ([y1; y2; y3; y4; y5; y6], self).

(** The state [self] is in when a configuration is created: the
    precision, and whether the dynamic shapes are set. *)
Definition static_state (p : PrecisionType) : TestState :=
  mkTestState p (mkDynamicShape [] [] []).

Definition dynamic_state (p : PrecisionType) : TestState :=
  mkTestState p
    (mkDynamicShape [("input_data"%string, [1; 3; 32; 32])]
                    [("input_data"%string, [4; 3; 64; 64])]
                    [("input_data"%string, [4; 3; 64; 64])]).

End Harness.

End LeakyRelu.

(** * Properties of [jacobian] *)

Section JacobianFacts.
Context {Tensor World ExtErr : Type}.
Context `{!TensorLib Tensor ExtErr, !GradEngine Tensor World ExtErr}.

Local Abbreviation Val := (PyVal Tensor).
Local Abbreviation Err := (Exn ExtErr).
Local Abbreviation Inv := (Invocation Tensor ExtErr).
Local Abbreviation State := (St Tensor World ExtErr).
Local Abbreviation Comp := (M Tensor World ExtErr).

Implicit Types (s : State) (R : list (list Val)) (row : list Val).

(** *** [try_map] *)

Lemma try_map_inr {A B} (f : A -> Err + B) xs ys :
  try_map f xs = inr ys <-> Forall2 (fun x y => f x = inr y) xs ys.
Proof.
  revert ys. induction xs as [|x xs IH]; intros ys; simpl.
  - split.
    + intros [= <-]. constructor.
    + intros ->%Forall2_nil_inv_l. done.
  - destruct (f x) as [e|y] eqn:Hx.
    + split; [done|]. intros (y & ys' & Hy & _ & _)%Forall2_cons_inv_l.
      congruence.
    + destruct (try_map f xs) as [e|ys'] eqn:Hxs.
      * split; [done|]. intros (y' & ys' & _ & Hys & _)%Forall2_cons_inv_l.
        apply IH in Hys. done.
      * split.
        -- intros [= <-]. constructor; [done|]. by apply IH.
        -- intros (y' & ys'' & Hy & Hys & ->)%Forall2_cons_inv_l.
           apply IH in Hys. congruence.
Qed.

Lemma try_map_inl {A B} (f : A -> Err + B) xs e :
  try_map f xs = inl e -> exists x, x ∈ xs /\ f x = inl e.
Proof.
  induction xs as [|x xs IH]; simpl; [done|].
  destruct (f x) as [e'|y] eqn:Hx.
  - intros [= <-]. exists x. split; [left|done].
  - destruct (try_map f xs) as [e'|ys]; [|done].
    intros [= <-]. destruct IH as (x' & Hin & Hx'); [done|].
    exists x'. split; [by right|done].
Qed.

Lemma try_map_length {A B} (f : A -> Err + B) xs ys :
  try_map f xs = inr ys -> length ys = length xs.
Proof. intros H%try_map_inr. symmetry. by eapply Forall2_length. Qed.

(** *** Loops: an invariant on the state and a bound on the exceptions *)

Lemma for_each_inv {A S} (I : State -> State -> Prop) (E : Err -> Prop)
    (xs : list A) (body : A -> S -> Comp S) :
  (forall s, I s s) ->
  (forall s1 s2 s3, I s1 s2 -> I s2 s3 -> I s1 s3) ->
  (forall x acc s r s', x ∈ xs -> body x acc s = (r, s') ->
     I s s' /\ forall e, r = inl e -> E e) ->
  forall acc s r s', for_each xs body acc s = (r, s') ->
     I s s' /\ forall e, r = inl e -> E e.
Proof.
  intros Hrefl Htrans. induction xs as [|x xs IH]; intros Hbody acc s r s'; simpl.
  - unfold ret. intros [= <- <-]. split; [apply Hrefl|done].
  - unfold bind. destruct (body x acc s) as [[e|acc'] s1] eqn:Hb.
    + intros [= <- <-]. eapply Hbody; [left|done].
    + intros Hrest. apply Hbody in Hb as [HI _]; [|left].
      apply IH in Hrest as [HI' HE].
      * split; [by eapply Htrans|done].
      * intros x' acc0 s0 r0 s0' Hin. apply Hbody. by right.
Qed.

(** *** The [j] loop *)

Lemma append_loop row n : forall a acc s r s',
  for_each (seq a n) (fun j jac_i =>
    bind (lift (py_index row j)) (fun x =>
      ret (alter (fun col => col ++ [flat_row_entry x]) j jac_i))) acc s
    = (r, s') ->
  s' = s /\
  ((r = inr (foldl (add_entry row) acc (seq a n)) /\
    forall j, a <= j < a + n -> j < length row) \/
   (r = inl IndexError /\ length row < a + n)).
Proof.
  induction n as [|n IH]; intros a acc s r s'; simpl.
  - unfold ret. intros [= <- <-]. split; [done|]. left. split; [done|lia].
  - unfold bind at 1. unfold bind at 1, lift, py_index, ret.
    destruct (row !! a) as [x|] eqn:Hx.
    + intros Hrest. apply IH in Hrest as [-> Hrest]. split; [done|].
      destruct Hrest as [[-> Hlen]|[-> Hlen]]; [left|right; split; [done|lia]].
      assert (add_entry row acc a
              = alter (fun col => col ++ [flat_row_entry x]) a acc) as ->
        by (unfold add_entry; by rewrite Hx).
      split; [done|].
      intros j Hj. destruct (decide (j = a)) as [->|].
      * by eapply lookup_lt_Some.
      * apply Hlen. lia.
    + intros [= <- <-]. split; [done|]. right. split; [done|].
      apply lookup_ge_None in Hx. lia.
Qed.

Lemma foldl_add_entry_lookup row n : forall a acc i,
  foldl (add_entry row) acc (seq a n) !! i =
  if bool_decide (a <= i < a + n)
  then (fun col => col ++ [flat_row_entry (default PNone (row !! i))]) <$> acc !! i
  else acc !! i.
Proof.
  induction n as [|n IH]; intros a acc i; simpl.
  - rewrite bool_decide_eq_false_2; [done|lia].
  - rewrite IH. unfold add_entry.
    destruct (decide (i = a)) as [->|Hne].
    + rewrite list_lookup_alter_eq.
      rewrite (bool_decide_eq_false_2 (S a <= a < _)); [|lia].
      rewrite bool_decide_eq_true_2; [done|lia].
    + rewrite list_lookup_alter_ne; [|done].
      apply (f_equal (fun b : bool => if b then _ else _)).
      apply bool_decide_ext. lia.
Qed.

Lemma columns_lookup q R j :
  columns q R !! j = if bool_decide (j < q) then Some (column j R) else None.
Proof.
  unfold columns. rewrite list_lookup_fmap. case_bool_decide as Hj.
  - by rewrite lookup_seq_lt.
  - rewrite lookup_seq_ge; [done|lia].
Qed.

Lemma length_columns q R : length (columns q R) = q.
Proof. unfold columns. by rewrite length_fmap, length_seq. Qed.

Lemma length_column j R : length (column j R) = length R.
Proof. unfold column. by rewrite length_fmap. Qed.


Lemma add_entries_columns q R row :
  foldl (add_entry row) (columns q R) (seq 0 q) = columns q (R ++ [row]).
Proof.
  apply list_eq. intros i. rewrite foldl_add_entry_lookup, !columns_lookup.
  simpl. case_bool_decide as Hi; case_bool_decide as Hi'; try lia; simpl; [|done].
  unfold column. by rewrite fmap_app.
Qed.

Lemma columns_nil q : replicate q [] = columns q ([] : list (list Val)).
Proof.
  apply list_eq. intros i. rewrite columns_lookup. case_bool_decide as Hi.
  - by apply lookup_replicate_2.
  - apply lookup_replicate_None. lia.
Qed.

(** *** One engine invocation and the [j] loop after it *)

Lemma grad_step c q acc s r s' :
  bind (call_grad c) (fun row_k => append_row q row_k acc) s = (r, s') ->
  exists out,
    grad c (world s) = (out, world s') /\
    trace s' = trace s ++ [mkInvocation c out] /\
    match out with
    | inl e => r = inl (Propagated FromEngine e)
    | inr row =>
        (r = inr (foldl (add_entry row) acc (seq 0 q)) /\
         forall j, j < q -> j < length row) \/
        (r = inl IndexError /\ length row < q)
    end.
Proof.
  unfold bind, call_grad.
  destruct (grad c (world s)) as [[e|row] w] eqn:Hg.
  - intros [= <- <-]. by exists (inl e).
  - unfold append_row. intros [-> Hr]%append_loop. exists (inr row).
    split; [done|]. split; [done|].
    destruct Hr as [[-> Hlen]|[-> Hlen]]; [left|right; split; [done|lia]].
    split; [done|]. intros j Hj. apply Hlen. lia.
Qed.

(** *** The [k] loop, when it completes *)

Lemma collect_loop_success ins q cg au flat n : forall a R0 s jac s',
  for_each (seq a n) (fun k jac_i =>
    bind (call_grad (mkGradCall (getitem flat k) ins cg true au))
         (fun row_k => append_row q row_k jac_i)) (columns q R0) s
    = (inr jac, s') ->
  exists R,
    length R = n /\
    jac = columns q (R0 ++ R) /\
    trace s' = trace s ++
      imap (fun k row => mkInvocation (grad_call ins cg au flat (a + k))
                                      (inr row)) R /\
    Forall genuine
      (imap (fun k row => mkInvocation (grad_call ins cg au flat (a + k))
                                       (inr row)) R) /\
    Forall (fun row => forall j, j < q -> j < length row) R.
Proof.
  induction n as [|n IH]; intros a R0 s jac s'; simpl.
  - unfold ret. intros [= <- <-]. exists []. simpl.
    by rewrite !app_nil_r.
  - unfold bind at 1.
    destruct (bind _ _ s) as [[e|acc'] s1] eqn:Hb; [done|].
    apply grad_step in Hb as (out & Hg & Htr & Hout).
    destruct out as [e|row]; [done|].
    destruct Hout as [[[= ->] Hlen]|[? _]]; [|done].
    rewrite add_entries_columns. intros Hrest.
    apply IH in Hrest as (R & HR & -> & Htr' & Hgen & Hlens).
    exists (row :: R). simpl. split; [by rewrite HR|].
    split; [by rewrite <- app_assoc|].
    rewrite Nat.add_0_r.
    assert (imap ((fun k row0 => mkInvocation (grad_call ins cg au flat (a + k))
                                             (inr row0)) ∘ S) R
            = imap (fun k row0 => mkInvocation
                                    (grad_call ins cg au flat (S a + k))
                                    (inr row0)) R) as ->.
    { apply imap_ext. intros k x _. simpl. by rewrite Nat.add_succ_r. }
    split; [by rewrite Htr', Htr, <- app_assoc|].
    split; [|by constructor].
    constructor; [|done]. by exists (world s), (world s1).
Qed.

Lemma jacobian_of_output_success ins q cg au t J s J' s' :
  jacobian_of_output ins q cg au (reshape_flat t) J s = (inr J', s') ->
  exists R blocks,
    J' = J ++ [blocks] /\
    output_run q t R blocks /\
    trace s' = trace s ++ invocations_for ins cg au (reshape_flat t) R /\
    Forall genuine (invocations_for ins cg au (reshape_flat t) R).
Proof.
  unfold jacobian_of_output, collect_rows. rewrite columns_nil.
  unfold bind at 1.
  destruct (for_each _ _ _ s) as [[e|jac] s1] eqn:Hloop; [done|].
  apply collect_loop_success in Hloop as (R & HR & -> & Htr & Hgen & Hlens).
  unfold bind, lift, ret. simpl.
  destruct (try_map _ _) as [e|blocks] eqn:Hst; [done|].
  intros [= <- <-]. exists R, blocks. by repeat split.
Qed.

(** *** The loop over the outputs, when it completes *)

Lemma outputs_loop_success ins q cg au ts : forall J0 s J s',
  for_each (reshape_flat <$> ts) (jacobian_of_output ins q cg au) J0 s
    = (inr J, s') ->
  exists RR Jn,
    J = J0 ++ Jn /\
    Forall3 (output_run q) ts RR Jn /\
    trace s' = trace s ++ engine_log ins cg au ts RR /\
    Forall genuine (engine_log ins cg au ts RR).
Proof.
  induction ts as [|t ts IH]; intros J0 s J s'; simpl.
  - unfold ret. intros [= <- <-]. exists [], []. rewrite !app_nil_r.
    repeat split; constructor.
  - unfold bind at 1.
    destruct (jacobian_of_output _ _ _ _ _ _ s) as [[e|J1] s1] eqn:Hout; [done|].
    apply jacobian_of_output_success in Hout
      as (R & blocks & -> & Hrun & Htr & Hgen).
    intros Hrest. apply IH in Hrest as (RR & Jn & -> & Hruns & Htr' & Hgen').
    exists (R :: RR), (blocks :: Jn). split; [by rewrite <- app_assoc|].
    split; [by constructor|]. unfold engine_log in *. simpl.
    split; [by rewrite Htr', Htr, <- app_assoc|].
    by apply Forall_app.
Qed.

(** *** [_check_tensors] *)

Lemma forallb_is_tensor (xs : list Val) :
  forallb is_tensor xs = true -> exists ts, xs = PTensor <$> ts.
Proof.
  induction xs as [|x xs IH]; simpl.
  - by exists [].
  - intros [Hx Hxs]%andb_prop. destruct IH as [ts ->]; [done|].
    destruct x as [t| | | |]; try done. by exists (t :: ts).
Qed.

Lemma check_tensors_inr (v : Val) name (v' : Val) :
  _check_tensors (ExtErr := ExtErr) v name = inr v' ->
  exists ts, seq_items v' = PTensor <$> ts /\ ts <> [] /\
             (v' = v \/ exists t, v = PTensor t /\ v' = PList [PTensor t]).
Proof.
  destruct v as [t| |xs|xs|tag]; simpl; try done.
  - intros [= <-]. exists [t]. repeat split; [done|]. right. by exists t.
  - destruct xs as [|x xs]; [done|]. simpl length. simpl Nat.eqb.
    destruct (forallb is_tensor (x :: xs)) eqn:Hall; [|done].
    intros [= <-]. apply forallb_is_tensor in Hall as [ts Hts].
    exists ts. simpl. split; [done|]. split; [|by left].
    by destruct ts.
  - destruct xs as [|x xs]; [done|]. simpl length. simpl Nat.eqb.
    destruct (forallb is_tensor (x :: xs)) eqn:Hall; [|done].
    intros [= <-]. apply forallb_is_tensor in Hall as [ts Hts].
    exists ts. simpl. split; [done|]. split; [|by left].
    by destruct ts.
Qed.

Lemma try_map_reshape_flat (ts : list Tensor) :
  try_map py_reshape_flat (PTensor <$> ts) = inr (reshape_flat <$> ts).
Proof.
  induction ts as [|t ts IH]; [done|].
  rewrite !fmap_cons. cbn [try_map py_reshape_flat]. by rewrite IH.
Qed.

(** *** A successful call, taken apart *)

Lemma jacobian_table_success func (inputs : Val) cg au s q p J s' :
  jacobian_table func inputs cg au s = (inr (q, p, J), s') ->
  exists ins out outs xs ts w1 RR,
    _check_tensors (ExtErr := ExtErr) inputs "inputs" = inr ins /\
    func (seq_items ins) (world s) = (inr out, w1) /\
    _check_tensors (ExtErr := ExtErr) out "outputs" = inr outs /\
    seq_items ins = PTensor <$> xs /\
    seq_items outs = PTensor <$> ts /\
    q = length xs /\ p = length ts /\ 0 < q /\ 0 < p /\
    Forall3 (output_run q) ts RR J /\
    trace s' = trace s ++ engine_log ins cg au ts RR /\
    Forall genuine (engine_log ins cg au ts RR).
Proof.
  unfold jacobian_table. unfold bind at 1, lift at 1.
  destruct (_check_tensors inputs _) as [e|ins] eqn:Hins; [done|].
  unfold bind at 1, call_func.
  destruct (func _ _) as [[e|out] w1] eqn:Hf; [done|].
  unfold bind at 1, lift at 1.
  destruct (_check_tensors out _) as [e|outs] eqn:Houts; [done|].
  destruct (check_tensors_inr _ _ _ Hins) as (xs & Hxs & Hxs0 & _).
  destruct (check_tensors_inr _ _ _ Houts) as (ts & Hts & Hts0 & _).
  rewrite Hts, try_map_reshape_flat. unfold bind at 1, lift at 1.
  unfold bind.
  destruct (for_each _ _ _ _) as [[e|J1] s1] eqn:Hloop; [done|].
  unfold ret. intros [= <- <- <- <-].
  apply outputs_loop_success in Hloop as (RR & Jn & -> & Hruns & Htr & Hgen).
  exists ins, out, outs, xs, ts, w1, RR.
  rewrite Hxs, length_fmap in Hruns. rewrite Hxs, !length_fmap.
  rewrite Hxs in Hf. simpl in Htr.
  split_and!; try done.
  - destruct xs; [done|simpl; lia].
  - destruct ts; [done|simpl; lia].
Qed.

(** *** The log and the exceptions, whatever the outcome *)

Lemma log_extends_refl P s : log_extends P s s.
Proof. exists []. by rewrite app_nil_r. Qed.

Lemma log_extends_trans P s1 s2 s3 :
  log_extends P s1 s2 -> log_extends P s2 s3 -> log_extends P s1 s3.
Proof.
  intros (n1 & H1 & HP1) (n2 & H2 & HP2). exists (n1 ++ n2).
  split; [by rewrite H2, H1, <- app_assoc|by apply Forall_app].
Qed.

Lemma collect_rows_outcome ins q cg au flat acc s (r : Err + _) s' :
  collect_rows ins q cg au flat acc s = (r, s') ->
  log_extends (flags_ok ins cg au) s s' /\
  forall e, r = inl e ->
    (exists x, e = Propagated FromEngine x) \/
    (e = IndexError /\ short_row ins q).
Proof.
  unfold collect_rows. apply for_each_inv.
  - apply log_extends_refl.
  - apply log_extends_trans.
  - clear. intros k acc s r s' _ Hb.
    apply grad_step in Hb as (out & Hg & Htr & Hout). split.
    + exists [mkInvocation (mkGradCall (getitem flat k) ins cg true au) out].
      split; [done|]. by repeat constructor.
    + intros e ->. destruct out as [x|row].
      * left. exists x. congruence.
      * destruct Hout as [[? _]|[[= <-] Hlen]]; [done|]. right.
        split; [done|]. eexists _, _, _, row.
        split; [|split; [exact Hg|exact Hlen]]. done.
Qed.

Lemma stack_or_none_inl (col : list Val) (e : Err) :
  _stack_tensor_or_return_none col = inl e ->
  (exists x, e = Propagated FromStack x) \/
  (e = AssertionError "Can't not stack an empty list" /\ col = []).
Proof.
  unfold _stack_tensor_or_return_none. destruct col as [|first col].
  - intros [= <-]. by right.
  - destruct (is_tensor first); [|done].
    destruct (stack _) as [x|]; [|done]. intros [= <-]. left. by exists x.
Qed.

Lemma jacobian_of_output_outcome ins q cg au t J s (r : Err + _) s' :
  0 < q ->
  jacobian_of_output ins q cg au (reshape_flat t) J s = (r, s') ->
  log_extends (flags_ok ins cg au) s s' /\
  forall e, r = inl e ->
    (exists x, e = Propagated FromEngine x) \/
    (e = IndexError /\ short_row ins q) \/
    (exists x, e = Propagated FromStack x) \/
    (e = AssertionError "Can't not stack an empty list" /\
     tensor_len (reshape_flat t) = 0).
Proof.
  intros Hq. unfold jacobian_of_output. unfold bind at 1.
  destruct (collect_rows _ _ _ _ _ _ s) as [[e|jac] s1] eqn:Hloop.
  - intros [= <- <-]. apply collect_rows_outcome in Hloop as [Hext HE].
    split; [done|]. intros e' [= <-].
    destruct (HE e) as [?|?]; [done|by left|by right; left].
  - pose proof Hloop as Hsucc. apply collect_rows_outcome in Hloop as [Hext _].
    unfold collect_rows in Hsucc. rewrite columns_nil in Hsucc.
    apply collect_loop_success in Hsucc as (R & HR & -> & _).
    unfold bind, lift, ret.
    destruct (try_map _ _) as [e|blocks] eqn:Hst; intros [= <- <-];
      (split; [done|]); [|done].
    intros e' [= <-]. right; right.
    apply try_map_inl in Hst as (col & Hcol & Hst).
    apply stack_or_none_inl in Hst as [?|[-> ->]]; [by left|right].
    split; [done|]. unfold columns in Hcol.
    apply list_elem_of_fmap in Hcol as (j & Hj & _).
    apply (f_equal length) in Hj. rewrite length_column in Hj. simpl in Hj.
    congruence.
Qed.

Lemma outputs_loop_outcome ins q cg au ts J0 s (r : Err + _) s' :
  0 < q ->
  for_each (reshape_flat <$> ts) (jacobian_of_output ins q cg au) J0 s
    = (r, s') ->
  log_extends (flags_ok ins cg au) s s' /\
  forall e, r = inl e ->
    (exists x, e = Propagated FromEngine x) \/
    (e = IndexError /\ short_row ins q) \/
    (exists x, e = Propagated FromStack x) \/
    (e = AssertionError "Can't not stack an empty list" /\
     exists t, t ∈ ts /\ tensor_len (reshape_flat t) = 0).
Proof.
  intros Hq. apply for_each_inv.
  - apply log_extends_refl.
  - apply log_extends_trans.
  - clear J0 s r s'. intros flat J s r s' Hin Hb.
    apply list_elem_of_fmap in Hin as (t & -> & Hin).
    apply jacobian_of_output_outcome in Hb as [Hext HE]; [|done].
    split; [done|]. intros e He.
    destruct (HE e He) as [?|[?|[?|[-> Hz]]]];
      [by left|by right; left|by right; right; left|].
    right; right; right. split; [done|]. by exists t.
Qed.

(** *** The blocks of a completed output *)

Lemma stack_or_none_block (col : list Val) (b : Val) :
  _stack_tensor_or_return_none col = inr b -> is_block b = true.
Proof.
  unfold _stack_tensor_or_return_none. destruct col as [|first col]; [done|].
  destruct (is_tensor first); [|by intros [= <-]].
  destruct (stack _); [done|by intros [= <-]].
Qed.

Lemma output_run_blocks q t R blocks :
  output_run q t R blocks ->
  length blocks = q /\ Forall (fun b => is_block b = true) blocks.
Proof.
  intros (_ & _ & Hst). split.
  - apply try_map_length in Hst. by rewrite length_columns in Hst.
  - apply try_map_inr in Hst. revert Hst. generalize (columns q R).
    intros cols Hst. induction Hst as [|col b cols bs Hb _ IH]; constructor; [|done].
    by eapply stack_or_none_block.
Qed.

Lemma output_runs_table q ts RR J :
  Forall3 (output_run q) ts RR J ->
  length J = length ts /\
  Forall (fun Jo => length Jo = q /\ Forall (fun b => is_block b = true) Jo) J.
Proof.
  induction 1 as [|t R Jo ts RR J Hrun _ [IHlen IH]]; [by split|].
  split; [simpl; by rewrite IHlen|]. constructor; [|done].
  by eapply output_run_blocks.
Qed.

(** *** The collapsing rule *)

Lemma first_of_each (pre J : list (list Val)) :
  Forall (fun Jo => length Jo = 1) J ->
  try_map (fun i => match py_index (ExtErr := ExtErr) (pre ++ J) i with
                    | inl e => inl e
                    | inr jac_i => py_index jac_i 0
                    end) (seq (length pre) (length J))
  = inr (concat J) /\ J = (fun b => [b]) <$> concat J.
Proof.
  intros HJ. revert pre. induction HJ as [|Jo J HJo _ IH]; intros pre; [done|].
  destruct Jo as [|b [|]]; try done. simpl.
  unfold py_index at 1. rewrite lookup_app_r, Nat.sub_diag; [|done]. simpl.
  specialize (IH (pre ++ [[b]])). rewrite length_app, Nat.add_1_r in IH.
  rewrite <- app_assoc in IH. simpl in IH. destruct IH as [IH1 IH2].
  rewrite IH1. split; [done|]. f_equal. exact IH2.
Qed.

Lemma collapse_cases q p (J : list (list Val)) :
  length J = p -> Forall (fun Jo => length Jo = q) J -> 0 < p ->
  exists res,
    collapse (ExtErr := ExtErr) q p J = inr res /\
    (p = 1 -> q = 1 -> exists b, J = [[b]] /\ res = b) /\
    (q = 1 -> p <> 1 ->
       exists bs, J = (fun b => [b]) <$> bs /\ res = PTuple bs) /\
    (p = 1 -> q <> 1 -> exists bs, J = [bs] /\ res = PTuple bs) /\
    (p <> 1 -> q <> 1 -> res = PTuple (PTuple <$> J)).
Proof.
  intros Hp Hq Hp0. unfold collapse.
  destruct (Nat.eqb_spec q 1) as [Eq|Eq];
    destruct (Nat.eqb_spec p 1) as [Ep|Ep]; simpl.
  - subst q. destruct J as [|Jo [|]]; simpl in Hp; try lia.
    apply Forall_inv in Hq. destruct Jo as [|b [|]]; try done.
    exists b. split; [done|]. split_and!; try done. by exists b.
  - subst q. destruct (first_of_each [] J Hq) as [Hmap HJ].
    simpl in Hmap. rewrite Hp in Hmap. rewrite Hmap.
    exists (PTuple (concat J)). split; [done|]. split_and!; try done.
    by exists (concat J).
  - destruct J as [|Jo [|]]; simpl in Hp; try lia.
    exists (PTuple Jo). split; [done|]. split_and!; try done. by exists Jo.
  - exists (PTuple (PTuple <$> J)). by split_and!.
Qed.

(** *** Every way [jacobian] can end *)

Lemma jacobian_table_outcome func (inputs : Val) cg au s (r : Err + _) s' :
  jacobian_table func inputs cg au s = (r, s') ->
  (forall e, r = inl e -> jacobian_failure func inputs s e) /\
  (forall ins, _check_tensors (ExtErr := ExtErr) inputs "inputs" = inr ins ->
     log_extends (flags_ok ins cg au) s s') /\
  (forall e : Err, _check_tensors inputs "inputs" = inl e ->
     trace s' = trace s).
Proof.
  unfold jacobian_table. unfold bind at 1, lift at 1.
  destruct (_check_tensors inputs _) as [e|ins] eqn:Hins.
  { intros [= <- <-]. split_and!; try done.
    intros e' [= <-]. by apply fail_inputs. }
  unfold bind at 1, call_func.
  destruct (func _ _) as [[x|out] w1] eqn:Hf.
  { intros [= <- <-]. split_and!; try done.
    - intros e' [= <-]. by eapply fail_func.
    - intros ? [= <-]. exists []. by rewrite app_nil_r. }
  unfold bind at 1, lift at 1.
  destruct (_check_tensors out _) as [e|outs] eqn:Houts.
  { intros [= <- <-]. split_and!; try done.
    - intros e' [= <-]. by eapply fail_outputs.
    - intros ? [= <-]. exists []. by rewrite app_nil_r. }
  destruct (check_tensors_inr _ _ _ Hins) as (xs & Hxs & Hxs0 & _).
  destruct (check_tensors_inr _ _ _ Houts) as (ts & Hts & Hts0 & _).
  rewrite Hts, try_map_reshape_flat. unfold bind at 1, lift at 1.
  unfold bind.
  destruct (for_each _ _ _ _) as [[e|J1] s1] eqn:Hloop.
  - apply outputs_loop_outcome in Hloop as [Hext HE].
    2:{ rewrite Hxs, length_fmap. destruct xs; [done|simpl; lia]. }
    intros [= <- <-]. split_and!; try done.
    + intros e' [= <-].
      destruct (HE e) as [[x ->]|[[-> Hshort]|[[x ->]|[-> (t & Hin & Hz)]]]];
        [done| | | |].
      * by eapply fail_engine.
      * by eapply fail_short_row.
      * by eapply fail_stack.
      * eapply fail_empty_output; try done. rewrite Hts.
        by apply list_elem_of_fmap_2.
    + by intros ? [= <-].
  - apply outputs_loop_outcome in Hloop as [Hext _].
    2:{ rewrite Hxs, length_fmap. destruct xs; [done|simpl; lia]. }
    unfold ret. intros [= <- <-]. split_and!; try done.
    by intros ? [= <-].
Qed.

Lemma jacobian_inl_table func (inputs : Val) cg au s (e : Err) s' :
  jacobian func inputs cg au s = (inl e, s') ->
  jacobian_table func inputs cg au s = (inl e, s').
Proof.
  unfold jacobian, bind.
  destruct (jacobian_table func inputs cg au s) as [[e'|[[q p] J]] s1] eqn:Ht.
  - by intros [= <- <-].
  - destruct (jacobian_table_success _ _ _ _ _ _ _ _ _ Ht)
      as (ins & out & outs & xs & ts & w1 & RR & _ & _ & _ & _ & _
          & -> & -> & _ & Hp0 & Hruns & _).
    destruct (output_runs_table _ _ _ _ Hruns) as [HlenJ HJ].
    destruct (collapse_cases (length xs) (length ts) J HlenJ)
      as (res & Hres & _); [|done|].
    { eapply Forall_impl; [exact HJ|]. by intros Jo [? _]. }
    unfold lift. rewrite Hres. done.
Qed.

Lemma jacobian_failures func (inputs : Val) cg au s e s' :
  jacobian func inputs cg au s = (inl e, s') ->
  jacobian_failure func inputs s e.
Proof.
  intros Ht%jacobian_inl_table.
  by apply (jacobian_table_outcome _ _ _ _ _ _ _ Ht).
Qed.

Lemma collapse_slot q p (J : list (list Val)) (res : Val) o j Jo b :
  length J = p -> Forall (fun Jo => length Jo = q) J ->
  collapse (ExtErr := ExtErr) q p J = inr res ->
  J !! o = Some Jo -> Jo !! j = Some b ->
  result_slot p q res o j = Some b.
Proof.
  intros Hp Hq Hres Ho Hj.
  assert (0 < p) as Hp0 by (apply lookup_lt_Some in Ho; lia).
  assert (length Jo = q) as HJo
    by (eapply (proj1 (Forall_lookup _ _) Hq); exact Ho).
  destruct (collapse_cases q p J Hp Hq Hp0)
    as (res' & Hres' & H11 & Hq1 & Hp1 & Hnn).
  rewrite Hres in Hres'. injection Hres' as <-. unfold result_slot.
  destruct (Nat.eqb_spec q 1) as [Eq|Eq];
    destruct (Nat.eqb_spec p 1) as [Ep|Ep]; simpl.
  - destruct (H11 Ep Eq) as (b' & -> & ->).
    destruct o as [|o]; [|done]. injection Ho as <-.
    destruct j as [|j]; [|done]. by injection Hj as <-.
  - destruct (Hq1 Eq Ep) as (bs & -> & ->). simpl.
    rewrite list_lookup_fmap in Ho.
    destruct (bs !! o) as [b'|]; [|done]. injection Ho as <-.
    destruct j as [|j]; [|done]. by injection Hj as <-.
  - destruct (Hp1 Ep Eq) as (bs & -> & ->). simpl.
    destruct o as [|o]; [|done]. by injection Ho as <-.
  - rewrite (Hnn Ep Eq). simpl. by rewrite list_lookup_fmap, Ho.
Qed.

Lemma output_run_slot q t R Jo j b :
  output_run q t R Jo -> Jo !! j = Some b ->
  j < q /\ R <> [] /\
  _stack_tensor_or_return_none (ExtErr := ExtErr) (column j R) = inr b.
Proof.
  intros (_ & _ & Hst) Hj. apply try_map_inr in Hst.
  eapply Forall2_lookup_r in Hst as (col & Hcol & Hst); [|exact Hj].
  rewrite columns_lookup in Hcol. case_bool_decide; [|done].
  injection Hcol as <-. split_and!; [done| |done].
  intros ->. done.
Qed.

(** *** When [_check_tensors] rejects *)

Lemma forallb_is_tensor_false (xs : list Val) :
  forallb is_tensor xs = false <-> exists x, x ∈ xs /\ is_tensor x = false.
Proof.
  split.
  - induction xs as [|x xs IH]; simpl; [done|].
    destruct (is_tensor x) eqn:Hx; simpl.
    + intros (y & Hy & Hf)%IH. exists y. split; [by right|done].
    + intros _. exists x. split; [left|done].
  - intros (x & Hin & Hx). apply not_true_iff_false. intros Hall.
    rewrite forallb_forall in Hall. apply list_elem_of_In in Hin.
    apply Hall in Hin. congruence.
Qed.

Lemma check_tensors_rejects (v : Val) name :
  (exists msg, _check_tensors (ExtErr := ExtErr) v name
               = inl (AssertionError msg)) <->
  empty_collection v \/ has_non_tensor v \/ not_a_collection v.
Proof.
  unfold empty_collection, has_non_tensor, not_a_collection.
  destruct v as [t| |xs|xs|tag]; simpl.
  - split; [by intros [? ?]|].
    intros [[?|?]|[(x & Hin & _)|[?|[? ?]]]]; try done. by inversion Hin.
  - split; [|by eexists]. intros _. right; right. by left.
  - destruct xs as [|x xs]; [split; [intros _; left; by left|by eexists]|].
    simpl length. simpl Nat.eqb. cbv iota.
    destruct (forallb is_tensor (x :: xs)) eqn:Hall.
    + split; [by intros [? ?]|].
      intros [[?|?]|[Hex|[?|[? ?]]]]; try done.
      apply forallb_is_tensor_false in Hex. congruence.
    + split; [|by eexists]. intros _. right; left.
      by apply forallb_is_tensor_false.
  - destruct xs as [|x xs]; [split; [intros _; left; by right|by eexists]|].
    simpl length. simpl Nat.eqb. cbv iota.
    destruct (forallb is_tensor (x :: xs)) eqn:Hall.
    + split; [by intros [? ?]|].
      intros [[?|?]|[Hex|[?|[? ?]]]]; try done.
      apply forallb_is_tensor_false in Hex. congruence.
    + split; [|by eexists]. intros _. right; left.
      by apply forallb_is_tensor_false.
  - split; [|by eexists]. intros _. right; right. right. by exists tag.
Qed.

Lemma check_tensors_inl (v : Val) name (e : Err) :
  _check_tensors v name = inl e -> exists msg, e = AssertionError msg.
Proof.
  destruct v as [t| |xs|xs|tag]; simpl; try done.
  - intros [= <-]. by eexists.
  - destruct (length xs =? 0); [intros [= <-]; by eexists|].
    destruct (forallb is_tensor xs); [done|]. intros [= <-]. by eexists.
  - destruct (length xs =? 0); [intros [= <-]; by eexists|].
    destruct (forallb is_tensor xs); [done|]. intros [= <-]. by eexists.
  - intros [= <-]. by eexists.
Qed.

Lemma jacobian_rejects_inputs func (inputs : Val) cg au s (e : Err) :
  _check_tensors inputs "inputs" = inl e ->
  jacobian func inputs cg au s = (inl e, s).
Proof.
  intros He. unfold jacobian, jacobian_table, bind, lift. by rewrite He.
Qed.

Lemma jacobian_rejects_outputs func (inputs ins out : Val) cg au s w1 (e : Err) :
  _check_tensors (ExtErr := ExtErr) inputs "inputs" = inr ins ->
  func (seq_items ins) (world s) = (inr out, w1) ->
  _check_tensors out "outputs" = inl e ->
  jacobian func inputs cg au s = (inl e, mkSt w1 (trace s)).
Proof.
  intros Hins Hf He. unfold jacobian, jacobian_table, bind, lift, call_func.
  by rewrite Hins, Hf, He.
Qed.

(** The exceptions of the body of [jacobian]: it raises an assertion
    error, before anything is differentiated, when [inputs] or the value
    returned by [func] is an empty list or tuple, has an element that is
    not a tensor, or is neither a tensor nor a list or tuple; its only
    other assertion error is that of [_stack_tensor_or_return_none], for
    an output without elements; any other exception is propagated or is
    the [IndexError] of a row with fewer entries than there are inputs. *)
Lemma jacobian_body_errors func (inputs : Val) cg au s :
  (empty_collection inputs \/ has_non_tensor inputs \/
   not_a_collection inputs ->
   exists msg, jacobian func inputs cg au s = (inl (AssertionError msg), s))
  /\
  (forall (ins out : Val) w1,
     _check_tensors (ExtErr := ExtErr) inputs "inputs" = inr ins ->
     func (seq_items ins) (world s) = (inr out, w1) ->
     empty_collection out \/ has_non_tensor out \/ not_a_collection out ->
     exists msg, jacobian func inputs cg au s
                 = (inl (AssertionError msg), mkSt w1 (trace s)))
  /\
  (forall (e : Err) s',
     jacobian func inputs cg au s = (inl e, s') ->
     (exists origin err, e = Propagated origin err) \/
     (e = IndexError /\
      exists ins : Val,
        _check_tensors (ExtErr := ExtErr) inputs "inputs" = inr ins /\
        short_row ins (length (seq_items ins))) \/
     (exists msg, e = AssertionError msg /\
        ((empty_collection inputs \/ has_non_tensor inputs \/
          not_a_collection inputs) \/
         (exists (ins out : Val) w1,
            _check_tensors (ExtErr := ExtErr) inputs "inputs" = inr ins /\
            func (seq_items ins) (world s) = (inr out, w1) /\
            (empty_collection out \/ has_non_tensor out \/
             not_a_collection out)) \/
         (msg = "Can't not stack an empty list"%string /\
          exists (ins out outs : Val) w1 t,
            _check_tensors (ExtErr := ExtErr) inputs "inputs" = inr ins /\
            func (seq_items ins) (world s) = (inr out, w1) /\
            _check_tensors (ExtErr := ExtErr) out "outputs" = inr outs /\
            PTensor t ∈ seq_items outs /\
            tensor_len (reshape_flat t) = 0)))).
Proof.
  split_and!.
  - intros (msg & Hmsg)%(check_tensors_rejects _ "inputs").
    exists msg. by apply jacobian_rejects_inputs.
  - intros ins out w1 Hins Hf (msg & Hmsg)%(check_tensors_rejects _ "outputs").
    exists msg. by eapply jacobian_rejects_outputs.
  - intros e s' Hjac. apply jacobian_failures in Hjac.
    destruct Hjac as [e He|ins x w1 Hins Hf|ins out w1 e Hins Hf He
                     |ins out w1 outs x Hins Hf Houts
                     |ins out w1 outs x Hins Hf Houts
                     |ins out w1 outs Hins Hf Houts Hshort
                     |ins out w1 outs t Hins Hf Houts Hin Hz].
    + right; right. destruct (check_tensors_inl _ _ _ He) as [msg ->].
      exists msg. split; [done|]. left.
      apply (check_tensors_rejects _ "inputs"). by exists msg.
    + left. by eexists _, _.
    + right; right. destruct (check_tensors_inl _ _ _ He) as [msg ->].
      exists msg. split; [done|]. right; left.
      exists ins, out, w1. split_and!; try done.
      apply (check_tensors_rejects _ "outputs"). by exists msg.
    + left. by eexists _, _.
    + left. by eexists _, _.
    + right; left. split; [done|]. by exists ins.
    + right; right. eexists. split; [done|]. right; right.
      split; [done|]. by exists ins, out, outs, w1, t.
Qed.

(** C6.  A successful call invokes the engine once for every entry [k]
    of every flattened output, in order: the sum of the flattened sizes
    in all, each invocation asking for the gradient of entry [k] of that
    output with respect to the whole input list. *)
Theorem jacobian_engine_invocations func (inputs ins out outs : Val) cg au
    s w1 (res : Val) s' :
  _check_tensors (ExtErr := ExtErr) inputs "inputs" = inr ins ->
  func (seq_items ins) (world s) = (inr out, w1) ->
  _check_tensors (ExtErr := ExtErr) out "outputs" = inr outs ->
  jacobian func inputs cg au s = (inr res, s') ->
  exists ts new,
    seq_items outs = PTensor <$> ts /\
    trace s' = trace s ++ new /\
    length new = sum_list ((fun t => tensor_len (reshape_flat t)) <$> ts) /\
    inv_call <$> new =
      concat ((fun t => grad_call ins cg au (reshape_flat t)
                          <$> seq 0 (tensor_len (reshape_flat t))) <$> ts).
Proof.
  intros Hins Hf Houts Hjac. unfold jacobian, bind in Hjac.
  destruct (jacobian_table func inputs cg au s) as [[e|[[q' p'] J]] s1] eqn:Ht;
    [done|].
  unfold lift in Hjac. injection Hjac as _ <-.
  destruct (jacobian_table_success _ _ _ _ _ _ _ _ _ Ht)
    as (ins' & out' & outs' & xs & ts & w1' & RR & Hins' & Hf' & Houts'
        & Hxs & Hts & -> & -> & Hq0 & Hp0 & Hruns & Htr & _).
  rewrite Hins in Hins'. injection Hins' as <-.
  rewrite Hf in Hf'. injection Hf' as <- <-.
  rewrite Houts in Houts'. injection Houts' as <-.
  exists ts, (engine_log ins cg au ts RR). split; [done|]. split; [done|].
  clear -Hruns. unfold engine_log.
  induction Hruns as [|t R Jo ts RR J (HR & _) _ [IHlen IH]]; [done|].
  simpl. rewrite length_app, fmap_app, IHlen, IH. split.
  - f_equal. unfold invocations_for. by rewrite length_imap.
  - f_equal. rewrite <- HR. unfold invocations_for. apply list_eq. intros k.
    rewrite !list_lookup_fmap, list_lookup_imap.
    destruct (R !! k) as [row|] eqn:Hk; simpl.
    + rewrite lookup_seq_lt; [done|]. by eapply lookup_lt_Some.
    + rewrite lookup_seq_ge; [done|]. by apply lookup_ge_None.
Qed.


(** C10.  Whatever the outcome of a call, every invocation of the engine
    it makes passes [retain_graph=True] and the caller's [create_graph]
    and [allow_unused]. *)
Theorem jacobian_engine_flags func (inputs : Val) cg au s :
  exists new,
    trace (snd (jacobian func inputs cg au s)) = trace s ++ new /\
    Forall (fun i => gc_retain_graph (inv_call i) = true /\
                     gc_create_graph (inv_call i) = cg /\
                     gc_allow_unused (inv_call i) = au) new.
Proof.
  assert (trace (snd (jacobian func inputs cg au s))
          = trace (snd (jacobian_table func inputs cg au s))) as ->.
  { unfold jacobian, bind.
    by destruct (jacobian_table _ _ _ _ s) as [[e|[[q p] J]] s1]. }
  destruct (jacobian_table func inputs cg au s) as [r s1] eqn:Ht.
  apply jacobian_table_outcome in Ht as (_ & Hok & Hbad). simpl.
  destruct (_check_tensors (ExtErr := ExtErr) inputs "inputs")
    as [e|ins] eqn:Hins.
  - exists []. rewrite app_nil_r. split; [by eapply Hbad|constructor].
  - destruct (Hok ins eq_refl) as (new & Htr & Hflags). exists new.
    split; [done|]. eapply Forall_impl; [exact Hflags|].
    by intros i (_ & ? & ? & ?).
Qed.

(** C1.  A successful call with [q] inputs and [p] outputs returns the
    table of blocks [J] (one row per output, one block per input, each a
    matrix or the absence marker) collapsed by the rule: the single block
    itself when [p = 1] and [q = 1]; the tuple of the [p] per-output
    blocks when [q = 1] and [p > 1]; the tuple of the [q] per-input
    blocks when [p = 1] and [q > 1]; otherwise the tuple, indexed by
    output, of the tuples, indexed by input. *)
Theorem jacobian_result_shape func (inputs ins out outs : Val) cg au s w1
    (res : Val) s' :
  _check_tensors (ExtErr := ExtErr) inputs "inputs" = inr ins ->
  func (seq_items ins) (world s) = (inr out, w1) ->
  _check_tensors (ExtErr := ExtErr) out "outputs" = inr outs ->
  jacobian func inputs cg au s = (inr res, s') ->
  let q := length (seq_items ins) in
  let p := length (seq_items outs) in
  exists J,
    jacobian_table func inputs cg au s = (inr (q, p, J), s') /\
    length J = p /\
    Forall (fun Jo => length Jo = q /\
                      Forall (fun b => is_block b = true) Jo) J /\
    (p = 1 -> q = 1 -> exists b, J = [[b]] /\ res = b) /\
    (q = 1 -> 1 < p ->
       exists bs, length bs = p /\ J = (fun b => [b]) <$> bs /\
                  res = PTuple bs) /\
    (p = 1 -> 1 < q ->
       exists bs, length bs = q /\ J = [bs] /\ res = PTuple bs) /\
    (1 < p -> 1 < q -> res = PTuple (PTuple <$> J)).
Proof.
  intros Hins Hf Houts Hjac q p. unfold jacobian, bind in Hjac.
  destruct (jacobian_table func inputs cg au s) as [[e|[[q' p'] J]] s1] eqn:Ht;
    [done|].
  unfold lift in Hjac. injection Hjac as Hcol <-.
  destruct (jacobian_table_success _ _ _ _ _ _ _ _ _ Ht)
    as (ins' & out' & outs' & xs & ts & w1' & RR & Hins' & Hf' & Houts'
        & Hxs & Hts & -> & -> & Hq0 & Hp0 & Hruns & _ & _).
  rewrite Hins in Hins'. injection Hins' as <-.
  rewrite Hf in Hf'. injection Hf' as <- <-.
  rewrite Houts in Houts'. injection Houts' as <-.
  subst q p. rewrite Hxs, Hts, !length_fmap.
  destruct (output_runs_table _ _ _ _ Hruns) as [HlenJ HJ].
  destruct (collapse_cases (length xs) (length ts) J HlenJ) as
    (res' & Hres & H11 & Hq1 & Hp1 & Hnn); [|done|].
  { eapply Forall_impl; [exact HJ|]. by intros Jo [? _]. }
  rewrite Hres in Hcol. injection Hcol as ->.
  exists J. split_and!; try done.
  - intros Hq Hp. destruct Hq1 as (bs & -> & ->); [done|lia|].
    exists bs. split_and!; try done. by rewrite length_fmap in HlenJ.
  - intros Hp Hq. destruct Hp1 as (bs & -> & ->); [done|lia|].
    exists bs. split_and!; try done.
    apply Forall_inv in HJ. by destruct HJ.
  - intros Hp Hq. apply Hnn; lia.
Qed.

End JacobianFacts.

Section JacobianContracts.
Context {Tensor World ExtErr : Type}.
Context `{!TensorLib Tensor ExtErr, !GradEngine Tensor World ExtErr}.
Context (reachable : Tensor -> Tensor -> bool).
Context `{!TensorLibSpec Tensor ExtErr}.
Context `{!GradEngineSpec Tensor World ExtErr reachable}.

Local Abbreviation Val := (PyVal Tensor).
Local Abbreviation Err := (Exn ExtErr).
Local Abbreviation State := (St Tensor World ExtErr).

Implicit Types (s : State) (R : list (list Val)) (row : list Val).
Implicit Types (t x : Tensor) (xs ts : list Tensor).

(** *** What the contracts say about the returned rows *)

Lemma genuine_row_entries (ins : Val) cg au t k row xs :
  seq_items ins = PTensor <$> xs ->
  k < tensor_len (reshape_flat t) ->
  genuine (mkInvocation (grad_call ins cg au (reshape_flat t) k) (inr row)) ->
  length row = length xs /\
  forall j x, xs !! j = Some x -> entry_ok reachable au t x j row.
Proof.
  intros Hxs Hk (w & w' & Hg). simpl in Hg. apply grad_rows in Hg.
  simpl in Hg. rewrite Hxs in Hg. split.
  - apply Forall2_length in Hg. by rewrite length_fmap in Hg.
  - intros j x Hj.
    eapply Forall2_lookup_l in Hg as (g & Hrow & Hg);
      [|by rewrite list_lookup_fmap, Hj].
    specialize (Hg x eq_refl).
    rewrite reachable_getitem_flat in Hg by done. by exists g.
Qed.

Lemma genuine_rows (ins : Val) cg au t R xs :
  seq_items ins = PTensor <$> xs ->
  length R <= tensor_len (reshape_flat t) ->
  Forall genuine (invocations_for ins cg au (reshape_flat t) R) ->
  Forall (fun row => length row = length xs /\
            forall j x, xs !! j = Some x -> entry_ok reachable au t x j row) R.
Proof.
  intros Hxs Hlen Hgen. apply Forall_lookup. intros k row Hk.
  apply (genuine_row_entries ins cg au t k row xs Hxs).
  - apply lookup_lt_Some in Hk. lia.
  - eapply (proj1 (Forall_lookup _ _) Hgen k).
    unfold invocations_for. by rewrite list_lookup_imap, Hk.
Qed.

Lemma engine_log_rows (ins : Val) cg au q ts RR J xs :
  seq_items ins = PTensor <$> xs ->
  Forall3 (output_run q) ts RR J ->
  Forall genuine (engine_log ins cg au ts RR) ->
  Forall2 (fun t R =>
             Forall (fun row => length row = length xs /\
                       forall j x, xs !! j = Some x ->
                                   entry_ok reachable au t x j row) R) ts RR.
Proof.
  intros Hxs Hruns. unfold engine_log.
  induction Hruns as [|t R Jo ts RR J (HR & _) _ IH]; simpl; [constructor|].
  intros [Hhd Htl]%Forall_app. constructor; [|by apply IH].
  apply (genuine_rows ins cg au t R xs Hxs); [lia|done].
Qed.

(** *** The column of an input, by whether it takes part in the output *)

Lemma column_reachable au t x j R :
  reachable t x = true ->
  Forall (fun row => entry_ok reachable au t x j row) R ->
  exists gs,
    column j R = PTensor <$> (reshape_flat <$> gs) /\
    length gs = length R /\
    Forall (fun g => shape g = shape x) gs /\
    forall k row, R !! k = Some row ->
      exists g, gs !! k = Some g /\ row !! j = Some (PTensor g).
Proof.
  intros Hr HR. induction HR as [|row R (g & Hg & Hok) _ (gs & Hcol & Hlen & Hsh & Hk)].
  - exists []. by split_and!.
  - rewrite Hr in Hok. destruct Hok as (tg & -> & Htg).
    exists (tg :: gs). split_and!.
    + unfold column in *. rewrite !fmap_cons, Hg. simpl. by rewrite <- Hcol.
    + simpl. by rewrite Hlen.
    + by constructor.
    + intros [|k] row' Hrow'; simpl in *.
      * injection Hrow' as <-. by exists tg.
      * by apply Hk.
Qed.

Lemma column_unreachable au t x j R :
  reachable t x = false ->
  Forall (fun row => entry_ok reachable au t x j row) R ->
  column j R = replicate (length R) PNone /\
  (R <> [] -> au = true) /\
  forall k row, R !! k = Some row -> row !! j = Some PNone.
Proof.
  intros Hr HR. induction HR as [|row R (g & Hg & Hok) _ (Hcol & _ & Hk)].
  - by split_and!.
  - rewrite Hr in Hok. destruct Hok as [-> Hau]. split_and!.
    + unfold column in *. rewrite fmap_cons, Hg. simpl. by rewrite <- Hcol.
    + done.
    + intros [|k] row' Hrow'; simpl in *; [by injection Hrow' as <-|].
      by apply (Hk k).
Qed.

Lemma stack_column_reachable (gs : list Tensor) x :
  gs <> [] ->
  Forall (fun g => shape g = shape x) gs ->
  exists B,
    _stack_tensor_or_return_none (ExtErr := ExtErr)
      (PTensor <$> (reshape_flat <$> gs)) = inr (PTensor B) /\
    stack (PTensor <$> (reshape_flat <$> gs)) = inr B /\
    shape B = [length gs; numel x].
Proof.
  intros Hne Hsh.
  assert (Forall (fun r => shape r = [numel x]) (reshape_flat <$> gs)) as Hflat.
  { apply Forall_fmap. eapply Forall_impl; [exact Hsh|]. simpl.
    intros g Hg. rewrite shape_reshape_flat. unfold numel. by rewrite Hg. }
  destruct (stack_total (reshape_flat <$> gs) [numel x]) as [B HB];
    [by destruct gs|done|].
  exists B. split_and!; [|done|].
  - unfold _stack_tensor_or_return_none. destruct gs as [|g gs]; [done|].
    rewrite !fmap_cons in *. simpl. by rewrite HB.
  - apply stack_shape in HB as (ts' & s' & Heq & Hs' & ->).
    apply (inj (fmap PTensor)) in Heq. subst ts'.
    rewrite length_fmap. f_equal.
    destruct gs as [|g gs]; [done|]. rewrite fmap_cons in *.
    apply Forall_inv in Hs'. apply Forall_inv in Hflat. congruence.
Qed.

(** *** A successful call under the contracts *)

Lemma table_rows func (inputs ins out outs : Val) xs ts cg au s w1 q p J s' :
  _check_tensors (ExtErr := ExtErr) inputs "inputs" = inr ins ->
  func (seq_items ins) (world s) = (inr out, w1) ->
  _check_tensors (ExtErr := ExtErr) out "outputs" = inr outs ->
  seq_items ins = PTensor <$> xs ->
  seq_items outs = PTensor <$> ts ->
  jacobian_table func inputs cg au s = (inr (q, p, J), s') ->
  q = length xs /\ p = length ts /\
  exists RR,
    trace s' = trace s ++ engine_log ins cg au ts RR /\
    Forall3 (output_run q) ts RR J /\
    Forall2 (fun t R =>
               Forall (fun row => length row = length xs /\
                         forall j x, xs !! j = Some x ->
                                     entry_ok reachable au t x j row) R)
            ts RR.
Proof.
  intros Hins Hf Houts Hxs Hts Ht.
  destruct (jacobian_table_success _ _ _ _ _ _ _ _ _ Ht)
    as (ins' & out' & outs' & xs' & ts' & w1' & RR & Hins' & Hf' & Houts'
        & Hxs' & Hts' & -> & -> & Hq0 & Hp0 & Hruns & Htr & Hgen).
  rewrite Hins in Hins'. injection Hins' as <-.
  rewrite Hf in Hf'. injection Hf' as <- <-.
  rewrite Houts in Houts'. injection Houts' as <-.
  rewrite Hxs in Hxs'. apply (inj (fmap PTensor)) in Hxs'. subst xs'.
  rewrite Hts in Hts'. apply (inj (fmap PTensor)) in Hts'. subst ts'.
  split; [done|]. split; [done|]. exists RR. split_and!; try done.
  by eapply engine_log_rows.
Qed.


(** Under the engine's contract the rows returned for one output agree on
    each input.  Then, with [allow_unused=True], the block for an output
    and an input is the absence marker exactly when every row has [None]
    for that input, and it is the stacked column as soon as one row has a
    tensor there. *)
Lemma block_absent_when_rows_agree func (inputs ins out outs : Val) xs ts cg
    s w1 q p J s' :
  _check_tensors (ExtErr := ExtErr) inputs "inputs" = inr ins ->
  func (seq_items ins) (world s) = (inr out, w1) ->
  _check_tensors (ExtErr := ExtErr) out "outputs" = inr outs ->
  seq_items ins = PTensor <$> xs ->
  seq_items outs = PTensor <$> ts ->
  jacobian_table func inputs cg true s = (inr (q, p, J), s') ->
  exists RR,
    trace s' = trace s ++ engine_log ins cg true ts RR /\
    forall o j Jo b,
      J !! o = Some Jo -> Jo !! j = Some b ->
      exists R,
        RR !! o = Some R /\
        (b = PNone <->
         forall k row, R !! k = Some row -> row !! j = Some PNone) /\
        ((exists k row g, R !! k = Some row /\ row !! j = Some (PTensor g)) ->
         exists B, b = PTensor B /\ stack (column j R) = inr B).
Proof.
  intros Hins Hf Houts Hxs Hts Ht.
  destruct (table_rows _ _ _ _ _ _ _ _ _ _ _ _ _ _ _ Hins Hf Houts Hxs Hts Ht)
    as (-> & -> & RR & Htr & Hruns & Hrows).
  exists RR. split; [done|]. intros o j Jo b HJo Hb.
  destruct (Forall3_lookup_r _ _ _ _ _ _ Hruns HJo) as (t & R & Ho & HR & Hrun).
  destruct (output_run_slot _ _ _ _ _ _ Hrun Hb) as (Hjq & HRne & Hst).
  destruct (lookup_lt_is_Some_2 xs j Hjq) as [x Hj].
  pose proof (Forall2_lookup_lr _ _ _ _ _ _ Hrows Ho HR) as HRrows.
  assert (Forall (entry_ok reachable true t x j) R) as Hent.
  { eapply Forall_impl; [exact HRrows|]. intros row [_ H]. by apply H. }
  exists R. split; [done|].
  destruct R as [|row0 R]; [done|].
  destruct (reachable t x) eqn:Hr.
  - destruct (column_reachable _ _ _ _ _ Hr Hent)
      as (gs & Hcol & Hlen & Hsh & Hk).
    destruct (stack_column_reachable gs x) as (B & HstB & HB & HshB);
      [|done|].
    { intros ->. done. }
    rewrite Hcol, HstB in Hst. injection Hst as <-. split.
    + split; [done|]. intros Hall.
      destruct (Hk 0 row0 eq_refl) as (g & _ & Hg).
      specialize (Hall 0 row0 eq_refl). congruence.
    + intros _. exists B. by rewrite Hcol.
  - destruct (column_unreachable _ _ _ _ _ Hr Hent) as (Hcol & _ & Hk).
    rewrite Hcol in Hst. simpl in Hst. injection Hst as <-. split.
    + done.
    + intros (k & row & g & Hrow & Hg). specialize (Hk k row Hrow).
      congruence.
Qed.

(** *** An input that takes no part, with [allow_unused=False] *)

Lemma no_short_row (ins : Val) xs :
  seq_items ins = PTensor <$> xs -> ~ short_row ins (length xs).
Proof.
  intros Hxs (c & w & w' & row & Hc & Hg & Hlen).
  apply grad_rows, Forall2_length in Hg.
  rewrite Hc, Hxs, length_fmap in Hg. lia.
Qed.

Lemma output_strict (ins : Val) xs cg t J s (r : Err + _) s' :
  seq_items ins = PTensor <$> xs ->
  0 < tensor_len (reshape_flat t) ->
  jacobian_of_output ins (length xs) cg false (reshape_flat t) J s = (r, s') ->
  (exists e, r = inl (Propagated FromEngine e)) \/
  ((exists J', r = inr J') /\ Forall (fun x => reachable t x = true) xs).
Proof.
  intros Hxs Hm. unfold jacobian_of_output. unfold bind at 1.
  destruct (collect_rows _ _ _ _ _ _ s) as [[e|jac] s1] eqn:Hloop.
  - intros [= <- <-]. apply collect_rows_outcome in Hloop as [_ HE].
    destruct (HE e eq_refl) as [[x ->]|[_ Hshort]]; [left; by exists x|].
    by apply no_short_row in Hshort.
  - unfold collect_rows in Hloop. rewrite columns_nil in Hloop.
    apply collect_loop_success in Hloop as (R & HR & -> & _ & Hgen & _).
    simpl. apply (genuine_rows ins cg false t R xs Hxs) in Hgen; [|lia].
    assert (Forall (fun x => reachable t x = true) xs) as Hreach.
    { apply Forall_lookup. intros j x Hj.
      destruct (reachable t x) eqn:Hr; [done|].
      assert (Forall (entry_ok reachable false t x j) R) as Hent.
      { eapply Forall_impl; [exact Hgen|]. intros row [_ H]. by apply H. }
      destruct (column_unreachable _ _ _ _ _ Hr Hent) as (_ & Hau & _).
      apply Hau. intros ->. simpl in HR. lia. }
    unfold bind, lift, ret.
    destruct (try_map _ _) as [e|blocks] eqn:Hst.
    + exfalso. apply try_map_inl in Hst as (col & Hcol & Hst).
      unfold columns in Hcol. apply list_elem_of_fmap in Hcol as (j & -> & Hj).
      apply elem_of_seq in Hj as [_ Hj]. simpl in Hj.
      destruct (lookup_lt_is_Some_2 xs j Hj) as [x Hx].
      assert (Forall (entry_ok reachable false t x j) R) as Hent.
      { eapply Forall_impl; [exact Hgen|]. intros row [_ H]. by apply H. }
      pose proof (proj1 (Forall_lookup _ _) Hreach j x Hx) as Hr. simpl in Hr.
      destruct (column_reachable _ _ _ _ _ Hr Hent) as (gs & Hcol & Hlen & Hsh & _).
      destruct (stack_column_reachable gs x) as (B & HstB & _); [|done|].
      { intros ->. simpl in Hlen. lia. }
      rewrite Hcol, HstB in Hst. done.
    + intros [= <- <-]. right. split; [by eexists|done].
Qed.

Lemma outputs_loop_strict (ins : Val) xs cg ts : forall J0 s (r : Err + _) s',
  seq_items ins = PTensor <$> xs ->
  Forall (fun t => 0 < tensor_len (reshape_flat t)) ts ->
  for_each (reshape_flat <$> ts)
           (jacobian_of_output ins (length xs) cg false) J0 s = (r, s') ->
  (exists e, r = inl (Propagated FromEngine e)) \/
  ((exists J, r = inr J) /\
   Forall (fun t => Forall (fun x => reachable t x = true) xs) ts).
Proof.
  induction ts as [|t ts IH]; intros J0 s r s' Hxs Hm; simpl.
  - unfold ret. intros [= <- <-]. right. split; [by eexists|constructor].
  - apply Forall_cons in Hm as [Hm Hms]. unfold bind at 1.
    destruct (jacobian_of_output _ _ _ _ _ _ s) as [[e|J1] s1] eqn:Hout.
    + intros [= <- <-].
      apply (output_strict ins xs cg t J0 s _ s1 Hxs Hm) in Hout
        as [?|[[? ?] _]]; [by left|done].
    + apply (output_strict ins xs cg t J0 s _ s1 Hxs Hm) in Hout
        as [[? ?]|[_ Hreach]]; [done|].
      intros Hrest. apply IH in Hrest as [?|[? Hall]]; [by left| |done|done].
      right. split; [done|by constructor].
Qed.

(** C3, amended.  Take a call whose arguments pass validation and in
    which input [x], number [j], takes no part in output [t], number
    [o].  With [allow_unused=True], if the call returns, the [(o, j)]
    slot of the result is [None].  With [allow_unused=False] the call
    raises, and when every output has at least one element the exception
    is the one raised by the engine. *)
Theorem jacobian_unreachable_input func (inputs ins out outs : Val) xs ts
    cg s w1 o j t x :
  _check_tensors (ExtErr := ExtErr) inputs "inputs" = inr ins ->
  func (seq_items ins) (world s) = (inr out, w1) ->
  _check_tensors (ExtErr := ExtErr) out "outputs" = inr outs ->
  seq_items ins = PTensor <$> xs ->
  seq_items outs = PTensor <$> ts ->
  ts !! o = Some t -> xs !! j = Some x ->
  reachable t x = false ->
  (forall (res : Val) s',
     jacobian func inputs cg true s = (inr res, s') ->
     result_slot (length ts) (length xs) res o j = Some PNone) /\
  (exists e s',
     jacobian func inputs cg false s = (inl e, s') /\
     (Forall (fun t => 0 < tensor_len (reshape_flat t)) ts ->
      exists err, e = Propagated FromEngine err)).
Proof.
  intros Hins Hf Houts Hxs Hts Ho Hj Hr.
  assert (forall au (res : Val) s',
            jacobian func inputs cg au s = (inr res, s') ->
            au = true /\
            result_slot (length ts) (length xs) res o j = Some PNone) as Hok.
  { intros au res s' Hjac. unfold jacobian, bind in Hjac.
    destruct (jacobian_table func inputs cg au s)
      as [[e|[[q p] J]] s1] eqn:Ht; [done|].
    unfold lift in Hjac. injection Hjac as Hcol <-.
    destruct (table_rows _ _ _ _ _ _ _ _ _ _ _ _ _ _ _
                Hins Hf Houts Hxs Hts Ht)
      as (-> & -> & RR & _ & Hruns & Hrows).
    destruct (Forall3_lookup_l _ _ _ _ _ _ Hruns Ho)
      as (R & Jo & HR & HJo & Hrun).
    destruct (output_runs_table _ _ _ _ Hruns) as [HlenJ HJ].
    assert (Forall (fun Jo => length Jo = length xs) J) as HJq.
    { eapply Forall_impl; [exact HJ|]. by intros ? [? _]. }
    assert (j < length Jo) as Hjlt.
    { rewrite (proj1 (Forall_lookup _ _) HJq o Jo HJo).
      by eapply lookup_lt_Some. }
    destruct (lookup_lt_is_Some_2 Jo j Hjlt) as [b Hb].
    destruct (output_run_slot _ _ _ _ _ _ Hrun Hb) as (_ & HRne & Hst).
    pose proof (Forall2_lookup_lr _ _ _ _ _ _ Hrows Ho HR) as HRrows.
    assert (Forall (entry_ok reachable au t x j) R) as Hent.
    { eapply Forall_impl; [exact HRrows|]. intros row [_ H]. by apply H. }
    destruct (column_unreachable _ _ _ _ _ Hr Hent) as (Hcolumn & Hau & _).
    split; [by apply Hau|].
    destruct R as [|row0 R]; [done|]. rewrite Hcolumn in Hst.
    simpl in Hst. injection Hst as <-.
    by eapply collapse_slot. }
  split.
  - intros res s' Hjac. by apply Hok in Hjac as [_ ?].
  - destruct (jacobian func inputs cg false s) as [[e|res] s'] eqn:Hjac.
    2:{ by apply Hok in Hjac as [? _]. }
    exists e, s'. split; [done|]. intros Hm.
    apply jacobian_inl_table in Hjac as Ht.
    unfold jacobian_table, bind, lift, call_func in Ht.
    rewrite Hins, Hf, Houts, Hts, try_map_reshape_flat in Ht.
    rewrite Hxs, length_fmap in Ht.
    destruct (for_each _ _ _ _) as [[e1|J1] s2] eqn:Hloop; [|done].
    injection Ht as <- <-.
    apply (outputs_loop_strict ins xs cg ts _ _ _ _ Hxs Hm) in Hloop
      as [[x0 [= ->]]|[_ Hall]]; [by exists x0|].
    pose proof (proj1 (Forall_lookup _ _) Hall o t Ho) as Hall'. simpl in Hall'.
    pose proof (proj1 (Forall_lookup _ _) Hall' j x Hj) as Hrx. simpl in Hrx.
    congruence.
Qed.

End JacobianContracts.

(** * The symbolic instance meets the contracts *)

Module SymFacts.
Import Sym.

Lemma forallb_has_shape s (vs : list (PyVal tensor)) :
  forallb (has_shape s) vs = true <->
  exists ts, vs = PTensor <$> ts /\ Forall (fun t => shape_of t = s) ts.
Proof.
  induction vs as [|v vs IH]; simpl.
  - split; [intros _; by exists []|done].
  - rewrite andb_true_iff, IH. split.
    + intros [Hv (ts & -> & Hts)]. destruct v as [t| | | |]; try done.
      exists (t :: ts). split; [done|]. constructor; [|done].
      unfold has_shape, shape_eqb in Hv. by apply bool_decide_eq_true in Hv.
    + intros (ts & Heq & Hts). destruct ts as [|t ts]; [done|].
      injection Heq as -> ->. apply Forall_cons in Hts as [Ht Hts].
      split; [|by exists ts]. unfold has_shape, shape_eqb.
      by apply bool_decide_eq_true.
Qed.

#[export] Instance sym_lib_spec : TensorLibSpec tensor string.
Proof.
  split.
  - done.
  - done.
  - intros vs B. simpl. unfold stack_sym.
    destruct vs as [|[t0| | | |] vs]; try done.
    destruct (forallb _ _) eqn:Hall; [|done]. intros [= <-].
    apply forallb_has_shape in Hall as (ts & Heq & Hts).
    exists ts, (shape_of t0). split; [done|]. split; [done|].
    change (length (PTensor t0 :: vs) :: shape_of t0 = length ts :: shape_of t0).
    by rewrite Heq, length_fmap.
  - intros ts s Hne Hts. simpl. unfold stack_sym.
    destruct ts as [|t0 ts]; [done|]. rewrite fmap_cons.
    assert (forallb (has_shape (shape_of t0)) (PTensor t0 :: (PTensor <$> ts))
            = true) as ->; [|by eexists].
    apply forallb_has_shape. exists (t0 :: ts). split; [done|].
    pose proof (Forall_inv Hts) as Ht0. simpl in Ht0. by rewrite Ht0.
Qed.

Lemma add_grad_none x y : add_grad x y = None <-> x = None /\ y = None.
Proof. destruct x, y; simpl; split; try done; by intros [? ?]. Qed.

Lemma backward_none t name : forall cot,
  backward t cot name = None <-> occurs name t = false.
Proof.
  induction t as [n s d|s d|a IHa b IHb|a IHa b IHb|a IH|a IH k];
    intros cot; simpl.
  - by destruct (n =? name).
  - done.
  - by rewrite add_grad_none, IHa, IHb, orb_false_iff.
  - by rewrite add_grad_none, IHa, IHb, orb_false_iff.
  - apply IH.
  - apply IH.
Qed.

Lemma grad_one_spec target au (x g : PyVal tensor) :
  grad_one target au x = inr g ->
  forall tx, x = PTensor tx ->
    if reachable target tx
    then exists tg, g = PTensor tg /\ shape_of tg = shape_of tx
    else g = PNone /\ au = true.
Proof.
  intros Hg tx ->. unfold grad_one in Hg.
  destruct tx as [n s d|s d|a b|a b|a|a k]; simpl;
    try (destruct au; [by injection Hg as <-|done]).
  destruct (backward target [1%Z] n) as [g'|] eqn:Hb.
  - injection Hg as <-.
    destruct (occurs n target) eqn:Ho.
    + by exists (Const s g').
    + apply (backward_none target n [1%Z]) in Ho. by rewrite Ho in Hb.
  - apply backward_none in Hb. rewrite Hb.
    destruct au; [by injection Hg as <-|done].
Qed.

#[export] Instance sym_engine_spec : GradEngineSpec tensor unit string reachable.
Proof.
  split.
  - intros out x k _. by destruct x.
  - intros c w w' row. simpl. intros [= Hg _]. revert row Hg.
    generalize (seq_items (gc_inputs c)). intros xs.
    induction xs as [|x xs IH]; intros row; simpl.
    + intros [= <-]. constructor.
    + destruct (grad_one _ _ x) as [e|g] eqn:Hx; [done|].
      destruct (grad_all _ _ xs) as [e|gs]; [done|]. intros [= <-].
      constructor; [|by apply IH]. by eapply grad_one_spec.
Qed.

End SymFacts.

(** * The docstring examples *)

Module Examples.
Import Sym SymFacts.

(** C7.  For [func(x) = paddle.matmul(x, x)] and [x] the 2-by-2 tensor of
    ones with gradients enabled, [jacobian(func, x)] returns a single
    tensor, of shape [[4; 4]], whose entries are those of the matrix of
    the docstring. *)
Theorem jacobian_matmul_square_example :
  exists B,
    fst (jacobian func_square (PTensor (ones22 0)) false false st0)
      = inr (PTensor B) /\
    shape_of B = [4; 4] /\
    data_of B = [2; 1; 1; 0;
                 1; 2; 0; 1;
                 1; 0; 2; 1;
                 0; 1; 1; 2]%Z.
Proof. eexists. split; [vm_compute; reflexivity|]. split; reflexivity. Qed.

(** The second and third docstring examples. *)
Example jacobian_matmul_example :
  fst (jacobian func_matmul
         (PList [PTensor (ones22 0); PTensor (twos22 1)]) true false st0)
  = inr (PTuple
           [PTensor (Const [4; 4] [2; 2; 0; 0; 2; 2; 0; 0;
                                   0; 0; 2; 2; 0; 0; 2; 2]%Z);
            PTensor (Const [4; 4] [1; 0; 1; 0; 0; 1; 0; 1;
                                   1; 0; 1; 0; 0; 1; 0; 1]%Z)]).
Proof. vm_compute. reflexivity. Qed.

Example jacobian_pair_example :
  fst (jacobian func_pair inputs_xy false true st0) = inr jacobian_pair.
Proof. vm_compute. reflexivity. Qed.

(** [_stack_tensor_or_return_none] looks at the first row only: it is
    the engine's contract that makes the other rows agree with it. *)
Example stack_looks_at_first_row :
  _stack_tensor_or_return_none (ExtErr := string)
    [PNone; PTensor (Flat (ones22 0))] = inr PNone.
Proof. reflexivity. Qed.

(** C5 as stated fails: an assertion error is raised for an output
    without elements, and for [None] passed as [inputs], though no
    collection is empty and no element of one is anything but a
    tensor. *)
Lemma jacobian_local_errors_counterexample :
  (fst (jacobian func_empty (PTensor (ones22 0)) false false st0)
     = inl (AssertionError "Can't not stack an empty list") /\
   ~ empty_collection (PList [PTensor (ones22 0)]) /\
   ~ has_non_tensor (PList [PTensor (ones22 0)]) /\
   func_empty [PTensor (ones22 0)] tt = (inr (PTensor (Const [0] [])), tt) /\
   ~ empty_collection (PList [PTensor (Const [0] [])]) /\
   ~ has_non_tensor (PList [PTensor (Const [0] [])]))
  /\
  (fst (jacobian func_square PNone false false st0)
     = inl (AssertionError "inputs should not be None") /\
   ~ empty_collection (PNone : PyVal tensor) /\
   ~ has_non_tensor (PNone : PyVal tensor)).
Proof.
  assert (forall t : tensor, ~ has_non_tensor (PList [PTensor t])) as Hnt.
  { intros t (v & Hin & Hv). apply list_elem_of_singleton in Hin. by subst v. }
  split_and!; try done.
  - by intros [?|?].
  - by intros [?|?].
  - by intros [?|?].
  - intros (v & Hin & _). by inversion Hin.
Qed.

(** C3 as stated fails: with [allow_unused=False] and an output without
    elements, in which the input takes no part, the engine is never
    invoked and the exception is the assertion error of
    [_stack_tensor_or_return_none], not one of the engine. *)
Lemma jacobian_unreachable_input_counterexample :
  reachable (Const [0] []) (ones22 0) = false /\
  jacobian func_empty (PTensor (ones22 0)) false false st0
    = (inl (AssertionError "Can't not stack an empty list"), st0) /\
  ~ exists e,
      fst (jacobian func_empty (PTensor (ones22 0)) false false st0)
      = inl (Propagated FromEngine e).
Proof.
  split; [reflexivity|]. split; [reflexivity|]. by intros [e ?].
Qed.

End Examples.

(** * The theorems at the third docstring example

    The hypotheses of the theorems hold of the symbolic instance on the
    arguments of the third docstring example. *)

Module Witnesses.
Import Sym SymFacts.

Lemma jacobian_result_shape_witness :
  exists J, length J = 2 /\ jacobian_pair = PTuple (PTuple <$> J).
Proof.
  destruct (jacobian_result_shape func_pair inputs_xy inputs_xy
              outputs_pair outputs_pair false true st0 tt jacobian_pair
              (snd (jacobian func_pair inputs_xy false true st0)))
    as (J & _ & HJ & _ & _ & _ & _ & Hnn);
    [reflexivity|reflexivity|reflexivity|vm_compute; reflexivity|].
  exists J. split; [exact HJ|]. apply Hnn; simpl; lia.
Defined.


Lemma jacobian_unreachable_input_witness :
  reachable (Mul (ones22 0) (ones22 0)) (twos22 1) = false /\
  result_slot 2 2 jacobian_pair 1 1 = Some PNone /\
  exists e, fst (jacobian func_pair inputs_xy false false st0)
            = inl (Propagated FromEngine e).
Proof.
  destruct (jacobian_unreachable_input reachable func_pair inputs_xy
              inputs_xy outputs_pair outputs_pair
              [ones22 0; twos22 1]
              [MatMul (ones22 0) (twos22 1); Mul (ones22 0) (ones22 0)]
              false st0 tt 1 1 (Mul (ones22 0) (ones22 0)) (twos22 1))
    as (Hnone & e & s' & Hraise & Hengine);
    [reflexivity|reflexivity|reflexivity|reflexivity|reflexivity
    |reflexivity|reflexivity|reflexivity|].
  split; [reflexivity|]. split.
  - apply (Hnone jacobian_pair
             (snd (jacobian func_pair inputs_xy false true st0))).
    vm_compute; reflexivity.
  - destruct Hengine as [err ->].
    + repeat constructor.
    + exists err. by rewrite Hraise.
Defined.

Lemma jacobian_engine_invocations_witness :
  exists new,
    trace (snd (jacobian func_pair inputs_xy false true st0))
    = trace st0 ++ new /\ length new = 8.
Proof.
  destruct (jacobian_engine_invocations func_pair inputs_xy inputs_xy
              outputs_pair outputs_pair false true st0 tt jacobian_pair
              (snd (jacobian func_pair inputs_xy false true st0)))
    as (ts & new & Hts & Htr & Hlen & _);
    [reflexivity|reflexivity|reflexivity|vm_compute; reflexivity|].
  exists new. split; [exact Htr|].
  change (PTensor <$> [MatMul (ones22 0) (twos22 1);
                       Mul (ones22 0) (ones22 0)] = PTensor <$> ts) in Hts.
  apply (inj (fmap PTensor)) in Hts. subst ts. exact Hlen.
Defined.

End Witnesses.

(** * The leaky_relu conversion test *)

Module LeakyReluFacts.
Import LeakyRelu.

Section Harness.
Context {OpConfig InferenceConfig : Type}.
Variable generate_op_config : list OpsConfigEntry -> list OpConfig.
Variable attrs_of : OpConfig -> Dict AttrVal.
Variable create_inference_config : TestState -> InferenceConfig.

(** C9.  [sample_program_configs] yields 25 program configurations,
    one for each [alpha] of [0.02, 1.0, 100.0, -1.0, 0.0] and, inside
    it, each [X_scale] of [1.0, 100.0, 0.01, -0.1, 0.0]: configuration
    number [i] has the operators that [generate_op_config] makes of the
    single leaky_relu entry whose attributes hold pair number [i], no
    weights, the one input [input_data] of ones and the output [y_data].
    For any program [sample_predictor_configs] yields 6 configurations,
    created with the precisions Float32, Half, Int8 while the dynamic
    shapes are cleared, then with the same three while they are set. *)
Theorem sample_configs_enumeration :
  length (sample_program_configs generate_op_config) = 25 /\
  sample_program_configs generate_op_config =
    (fun ax => program_config_for generate_op_config (fst ax) (snd ax)) <$>
    [(1 # 50, 1 # 1); (1 # 50, 100 # 1); (1 # 50, 1 # 100);
     (1 # 50, -1 # 10); (1 # 50, 0 # 1);
     (1 # 1, 1 # 1); (1 # 1, 100 # 1); (1 # 1, 1 # 100);
     (1 # 1, -1 # 10); (1 # 1, 0 # 1);
     (100 # 1, 1 # 1); (100 # 1, 100 # 1); (100 # 1, 1 # 100);
     (100 # 1, -1 # 10); (100 # 1, 0 # 1);
     (-1 # 1, 1 # 1); (-1 # 1, 100 # 1); (-1 # 1, 1 # 100);
     (-1 # 1, -1 # 10); (-1 # 1, 0 # 1);
     (0 # 1, 1 # 1); (0 # 1, 100 # 1); (0 # 1, 1 # 100);
     (0 # 1, -1 # 10); (0 # 1, 0 # 1)]%Q /\
  ops <$> sample_program_configs generate_op_config =
    (fun ax : Q * Q =>
       generate_op_config
         [mkOpsConfigEntry "leaky_relu"
            [("X", ["input_data"])]%string
            [("Out", ["y_data"])]%string
            [("alpha", AFloat (fst ax));
             ("use_mkldnn", ABool true);
             ("enable_int8", ABool true);
             ("X_scale", AFloat (snd ax))]%string]) <$>
    [(1 # 50, 1 # 1); (1 # 50, 100 # 1); (1 # 50, 1 # 100);
     (1 # 50, -1 # 10); (1 # 50, 0 # 1);
     (1 # 1, 1 # 1); (1 # 1, 100 # 1); (1 # 1, 1 # 100);
     (1 # 1, -1 # 10); (1 # 1, 0 # 1);
     (100 # 1, 1 # 1); (100 # 1, 100 # 1); (100 # 1, 1 # 100);
     (100 # 1, -1 # 10); (100 # 1, 0 # 1);
     (-1 # 1, 1 # 1); (-1 # 1, 100 # 1); (-1 # 1, 1 # 100);
     (-1 # 1, -1 # 10); (-1 # 1, 0 # 1);
     (0 # 1, 1 # 1); (0 # 1, 100 # 1); (0 # 1, 1 # 100);
     (0 # 1, -1 # 10); (0 # 1, 0 # 1)]%Q /\
  Forall (fun pc : ProgramConfig =>
            weights pc = [] /\
            (fun kv => (fst kv, data_gen (snd kv) tt)) <$> inputs pc
              = [("input_data"%string, mkNdArray [1; 3; 64; 64] (1 # 1)%Q)] /\
            outputs pc = ["y_data"%string])
         (sample_program_configs generate_op_config) /\
  forall (self : TestState) (program_config : ProgramConfig),
    let yields :=
      fst (sample_predictor_configs attrs_of create_inference_config
                                    self program_config) in
    length yields = 6 /\
    (fun y => fst (fst y)) <$> yields =
      create_inference_config <$>
        [static_state Float32; static_state Half; static_state Int8;
         dynamic_state Float32; dynamic_state Half; dynamic_state Int8].
Proof.
  split; [reflexivity|]. split; [reflexivity|]. split; [reflexivity|].
  split.
  - unfold sample_program_configs, alphas, X_scales. simpl.
    repeat (apply Forall_cons; split; [by split_and!|]). apply Forall_nil_2.
  - intros self program_config. split; reflexivity.
Qed.

End Harness.

End LeakyReluFacts.


(** * Further properties of [jacobian] *)

Section JacobianLog.
Context {Tensor World ExtErr : Type}.
Context `{!TensorLib Tensor ExtErr, !GradEngine Tensor World ExtErr}.

Local Abbreviation Val := (PyVal Tensor).
Local Abbreviation Err := (Exn ExtErr).
Local Abbreviation Inv := (Invocation Tensor ExtErr).
Local Abbreviation State := (St Tensor World ExtErr).
Local Abbreviation Comp := (M Tensor World ExtErr).

Implicit Types (s : State) (R : list (list Val)) (row : list Val).

(** *** Nothing is invoked after an invocation that raised *)

Lemma fail_fast_nil : fail_fast ([] : list Inv) None.
Proof. left. split; [constructor|done]. Qed.

Lemma fail_fast_app (n1 n2 : list Inv) err :
  fail_fast n1 None -> fail_fast n2 err -> fail_fast (n1 ++ n2) err.
Proof.
  intros [[H1 _]|(? & ? & ? & _ & _ & ?)]; [|done].
  intros [[H2 Herr]|(pre & c & x & -> & Hpre & ->)].
  - left. split; [by apply Forall_app|done].
  - right. exists (n1 ++ pre), c, x. rewrite app_assoc.
    split; [done|]. split; [by apply Forall_app|done].
Qed.

Lemma for_each_fail_fast {A S} (xs : list A) (body : A -> S -> Comp S) :
  (forall x acc s r s', body x acc s = (r, s') ->
     exists new, trace s' = trace s ++ new /\ fail_fast new (err_of r)) ->
  forall acc s r s', for_each xs body acc s = (r, s') ->
     exists new, trace s' = trace s ++ new /\ fail_fast new (err_of r).
Proof.
  intros Hbody. induction xs as [|x xs IH]; intros acc s r s'; simpl.
  - unfold ret. intros [= <- <-]. exists []. rewrite app_nil_r.
    split; [done|apply fail_fast_nil].
  - unfold bind. destruct (body x acc s) as [[e|acc'] s1] eqn:Hb.
    + intros [= <- <-]. by apply Hbody in Hb.
    + intros Hrest. apply Hbody in Hb as (n1 & Htr1 & H1).
      apply IH in Hrest as (n2 & Htr2 & H2). exists (n1 ++ n2).
      split; [by rewrite Htr2, Htr1, <- app_assoc|by apply fail_fast_app].
Qed.

Lemma collect_rows_fail_fast ins q cg au flat acc s (r : Err + _) s' :
  collect_rows ins q cg au flat acc s = (r, s') ->
  exists new, trace s' = trace s ++ new /\ fail_fast new (err_of r).
Proof.
  unfold collect_rows. apply for_each_fail_fast. clear.
  intros k acc s r s' Hb. apply grad_step in Hb as (out & Hg & Htr & Hout).
  eexists. split; [exact Htr|]. destruct out as [x|row].
  - subst r. right. by exists [], (mkGradCall (getitem flat k) ins cg true au), x.
  - left. split; [by repeat constructor|].
    destruct Hout as [[-> _]|[-> _]]; by intros x.
Qed.

Lemma jacobian_of_output_fail_fast ins q cg au flat J s (r : Err + _) s' :
  jacobian_of_output ins q cg au flat J s = (r, s') ->
  exists new, trace s' = trace s ++ new /\ fail_fast new (err_of r).
Proof.
  unfold jacobian_of_output. unfold bind at 1.
  destruct (collect_rows _ _ _ _ _ _ s) as [[e|jac] s1] eqn:Hloop.
  - intros [= <- <-]. by apply collect_rows_fail_fast in Hloop.
  - apply collect_rows_fail_fast in Hloop as (new & Htr & Hff).
    unfold bind, lift, ret.
    destruct (try_map _ _) as [e|blocks] eqn:Hst; intros [= <- <-];
      (exists new; split; [done|]); [|done].
    destruct Hff as [[Hall _]|(? & ? & ? & _ & _ & ?)]; [|done].
    left. split; [done|]. intros x [= ->].
    apply try_map_inl in Hst as (col & _ & Hst).
    by apply stack_or_none_inl in Hst as [[? ?]|[? _]].
Qed.

Lemma jacobian_table_fail_fast func (inputs : Val) cg au s (r : Err + _) s' :
  jacobian_table func inputs cg au s = (r, s') ->
  exists new, trace s' = trace s ++ new /\ fail_fast new (err_of r).
Proof.
  assert (forall (e : Err) (t : list Inv),
            (forall x, e <> Propagated FromEngine x) ->
            exists new, t = t ++ new /\ fail_fast new (Some e)) as Hquiet.
  { intros e t He. exists []. rewrite app_nil_r. split; [done|]. left.
    split; [constructor|]. intros x [= ->]. by eapply He. }
  unfold jacobian_table. unfold bind at 1, lift at 1.
  destruct (_check_tensors inputs _) as [e|ins] eqn:Hins.
  { intros [= <- <-]. apply Hquiet. intros x ->.
    by apply check_tensors_inl in Hins as [? ?]. }
  unfold bind at 1, call_func.
  destruct (func _ _) as [[x|out] w1] eqn:Hf.
  { intros [= <- <-]. simpl. by apply Hquiet. }
  unfold bind at 1, lift at 1.
  destruct (_check_tensors out _) as [e|outs] eqn:Houts.
  { intros [= <- <-]. simpl. apply Hquiet. intros x ->.
    by apply check_tensors_inl in Houts as [? ?]. }
  destruct (check_tensors_inr _ _ _ Houts) as (ts & Hts & _).
  rewrite Hts, try_map_reshape_flat. unfold bind at 1, lift at 1.
  unfold bind.
  destruct (for_each _ _ _ _) as [[e|J1] s1] eqn:Hloop.
  - intros [= <- <-].
    eapply for_each_fail_fast in Hloop; [exact Hloop|].
    intros flat J s0 r0 s0'. apply jacobian_of_output_fail_fast.
  - unfold ret. intros [= <- <-].
    eapply for_each_fail_fast in Hloop; [exact Hloop|].
    intros flat J s0 r0 s0'. apply jacobian_of_output_fail_fast.
Qed.

(** X4.  [jacobian] invokes nothing after an invocation of the engine that
    raised: in the log of a call either every invocation returned and the
    call did not end with an exception of the engine, or every invocation
    but the last returned, the last raised, and the call ended with that
    very exception. *)
Theorem jacobian_fail_fast func (inputs : Val) cg au s :
  exists new,
    trace (snd (jacobian func inputs cg au s)) = trace s ++ new /\
    fail_fast new (err_of (fst (jacobian func inputs cg au s))).
Proof.
  destruct (jacobian_table func inputs cg au s) as [r s1] eqn:Ht.
  pose proof (jacobian_table_fail_fast _ _ _ _ _ _ _ Ht) as (new & Htr & Hff).
  exists new. unfold jacobian, bind. rewrite Ht.
  destruct r as [e|[[q p] J]]; [done|]. simpl. split; [done|].
  destruct (jacobian_table_success _ _ _ _ _ _ _ _ _ Ht)
    as (_ & _ & _ & xs & ts & _ & RR & _ & _ & _ & _ & _
        & -> & -> & _ & Hp0 & Hruns & _).
  destruct (output_runs_table _ _ _ _ Hruns) as [HlenJ HJ].
  destruct (collapse_cases (ExtErr := ExtErr) (length xs) (length ts) J HlenJ)
    as (res & -> & _); [|done|done].
  eapply Forall_impl; [exact HJ|]. by intros Jo [? _].
Qed.

(** *** The log is always an initial part of the schedule *)

Lemma collect_loop_calls ins q cg au flat n : forall a acc s (r : Err + _) s',
  for_each (seq a n) (fun k jac_i =>
    bind (call_grad (mkGradCall (getitem flat k) ins cg true au))
         (fun row_k => append_row q row_k jac_i)) acc s = (r, s') ->
  exists new,
    trace s' = trace s ++ new /\
    inv_call <$> new `prefix_of` (grad_call ins cg au flat <$> seq a n) /\
    (err_of r = None -> inv_call <$> new = grad_call ins cg au flat <$> seq a n).
Proof.
  induction n as [|n IH]; intros a acc s r s'; simpl.
  - unfold ret. intros [= <- <-]. exists []. rewrite app_nil_r.
    split; [done|]. split; [apply prefix_nil|done].
  - unfold bind at 1.
    destruct (bind _ _ s) as [[e|acc'] s1] eqn:Hb;
      apply grad_step in Hb as (out & _ & Htr & _).
    + intros [= <- <-]. eexists. split; [exact Htr|].
      split; [|done]. apply prefix_cons, prefix_nil.
    + intros Hrest. apply IH in Hrest as (new & Htr' & Hpre & Hfull).
      eexists (_ :: new). split; [by rewrite Htr', Htr, <- app_assoc|].
      rewrite fmap_cons. split; [by apply prefix_cons|].
      intros Hr. by rewrite Hfull.
Qed.

Lemma jacobian_of_output_calls ins q cg au flat J s (r : Err + _) s' :
  jacobian_of_output ins q cg au flat J s = (r, s') ->
  exists new,
    trace s' = trace s ++ new /\
    inv_call <$> new
      `prefix_of` (grad_call ins cg au flat <$> seq 0 (tensor_len flat)) /\
    (err_of r = None ->
     inv_call <$> new = grad_call ins cg au flat <$> seq 0 (tensor_len flat)).
Proof.
  unfold jacobian_of_output, collect_rows. unfold bind at 1.
  destruct (for_each _ _ _ s) as [[e|jac] s1] eqn:Hloop;
    apply collect_loop_calls in Hloop as (new & Htr & Hpre & Hfull).
  - intros [= <- <-]. by exists new.
  - unfold bind, lift, ret.
    destruct (try_map _ _); intros [= <- <-]; exists new; split_and!;
      try done; intros _; by apply Hfull.
Qed.

Lemma outputs_loop_calls ins q cg au ts : forall J0 s (r : Err + _) s',
  for_each (reshape_flat <$> ts) (jacobian_of_output ins q cg au) J0 s
    = (r, s') ->
  exists new,
    trace s' = trace s ++ new /\
    inv_call <$> new `prefix_of` schedule ins cg au ts.
Proof.
  unfold schedule.
  induction ts as [|t ts IH]; intros J0 s r s'; simpl.
  - unfold ret. intros [= <- <-]. exists []. rewrite app_nil_r.
    split; [done|apply prefix_nil].
  - unfold bind at 1.
    destruct (jacobian_of_output _ _ _ _ _ _ s) as [[e|J1] s1] eqn:Hout;
      apply jacobian_of_output_calls in Hout as (new & Htr & Hpre & Hfull).
    + intros [= <- <-]. exists new. split; [done|]. by apply prefix_app_r.
    + intros Hrest. apply IH in Hrest as (new' & Htr' & Hpre').
      exists (new ++ new'). split; [by rewrite Htr', Htr, <- app_assoc|].
      rewrite fmap_app, Hfull by done. by apply prefix_app.
Qed.

(** X3.  Whatever the outcome of a call whose arguments pass validation,
    the invocations it made are an initial part of the schedule: entry 0,
    1, ... of the first flattened output, then of the second, and so on,
    each with the whole validated input list. *)
Theorem jacobian_log_prefix func (inputs ins out outs : Val) ts cg au s w1 :
  _check_tensors (ExtErr := ExtErr) inputs "inputs" = inr ins ->
  func (seq_items ins) (world s) = (inr out, w1) ->
  _check_tensors (ExtErr := ExtErr) out "outputs" = inr outs ->
  seq_items outs = PTensor <$> ts ->
  exists new,
    trace (snd (jacobian func inputs cg au s)) = trace s ++ new /\
    inv_call <$> new `prefix_of` schedule ins cg au ts.
Proof.
  intros Hins Hf Houts Hts.
  unfold jacobian, jacobian_table, bind, lift, call_func.
  rewrite Hins, Hf, Houts, Hts, try_map_reshape_flat.
  destruct (for_each _ _ _ _) as [[e|J1] s1] eqn:Hloop;
    apply outputs_loop_calls in Hloop as (new & Htr & Hpre); by exists new.
Qed.

(** X2.  The engine is invoked only after both validations passed: if the
    log grew during a call, then [inputs] passed [_check_tensors], [func]
    returned, and what it returned passed [_check_tensors]. *)
Theorem jacobian_invokes_after_validation func (inputs : Val) cg au s :
  trace (snd (jacobian func inputs cg au s)) <> trace s ->
  exists (ins out outs : Val) w1,
    _check_tensors (ExtErr := ExtErr) inputs "inputs" = inr ins /\
    func (seq_items ins) (world s) = (inr out, w1) /\
    _check_tensors (ExtErr := ExtErr) out "outputs" = inr outs.
Proof.
  unfold jacobian, jacobian_table, bind, lift, call_func.
  destruct (_check_tensors inputs _) as [e|ins] eqn:Hins; [done|].
  destruct (func _ _) as [[x|out] w1] eqn:Hf; [done|].
  destruct (_check_tensors out _) as [e|outs] eqn:Houts; [done|].
  intros _. by exists ins, out, outs, w1.
Qed.

(** *** Validation is a normalisation *)

(** X1.  What [_check_tensors] returns passes [_check_tensors] again,
    unchanged and under any name: a list or tuple that passes is returned
    as it is, and a bare tensor as the one-element list of it. *)
Theorem check_tensors_idempotent (v v' : Val) name name' :
  _check_tensors (ExtErr := ExtErr) v name = inr v' ->
  _check_tensors (ExtErr := ExtErr) v' name' = inr v' /\
  ((v' = v /\ exists xs, v = PList xs \/ v = PTuple xs) \/
   (exists t, v = PTensor t /\ v' = PList [PTensor t])).
Proof.
  destruct v as [t| |xs|xs|tag]; simpl; try done.
  - intros [= <-]. split; [done|]. right. by exists t.
  - destruct (length xs =? 0) eqn:Hlen; [done|].
    destruct (forallb is_tensor xs) eqn:Hall; [|done]. intros [= <-].
    simpl. rewrite Hlen, Hall. split; [done|]. left. split; [done|].
    exists xs. by left.
  - destruct (length xs =? 0) eqn:Hlen; [done|].
    destruct (forallb is_tensor xs) eqn:Hall; [|done]. intros [= <-].
    simpl. rewrite Hlen, Hall. split; [done|]. left. split; [done|].
    exists xs. by right.
Qed.

(** *** The table and the result *)

Lemma jacobian_inr_table func (inputs : Val) cg au s (res : Val) s' :
  jacobian func inputs cg au s = (inr res, s') ->
  exists q p J,
    jacobian_table func inputs cg au s = (inr (q, p, J), s') /\
    collapse (ExtErr := ExtErr) q p J = inr res.
Proof.
  unfold jacobian, bind.
  destruct (jacobian_table func inputs cg au s) as [[e|[[q p] J]] s1]; [done|].
  unfold lift. intros [= Hres <-]. by exists q, p, J.
Qed.

(** X7.  The collapsing rule loses nothing: reading the result of a
    successful call back through the rule gives, for every output number
    [o] and input number [j], the block [J[o][j]] of the table, and nothing
    outside the table. *)
Theorem jacobian_slot_round_trip func (inputs : Val) cg au s q p J s1
    (res : Val) s' :
  jacobian_table func inputs cg au s = (inr (q, p, J), s1) ->
  jacobian func inputs cg au s = (inr res, s') ->
  forall o j,
    result_slot p q res o j =
    match J !! o with Some Jo => Jo !! j | None => None end.
Proof.
  intros Ht Hjac.
  apply jacobian_inr_table in Hjac as (q' & p' & J' & Ht' & Hres).
  rewrite Ht in Ht'. injection Ht' as <- <- <- <-.
  destruct (jacobian_table_success _ _ _ _ _ _ _ _ _ Ht)
    as (_ & _ & _ & xs & ts & _ & RR & _ & _ & _ & _ & _
        & -> & -> & _ & Hp0 & Hruns & _).
  destruct (output_runs_table _ _ _ _ Hruns) as [HlenJ HJ].
  destruct (collapse_cases (ExtErr := ExtErr) (length xs) (length ts) J HlenJ)
    as (res' & Hres' & H11 & Hq1 & Hp1 & Hnn); [|done|].
  { eapply Forall_impl; [exact HJ|]. by intros Jo [? _]. }
  rewrite Hres in Hres'. injection Hres' as <-.
  intros o j. unfold result_slot.
  destruct (Nat.eqb_spec (length xs) 1) as [Eq|Eq];
    destruct (Nat.eqb_spec (length ts) 1) as [Ep|Ep]; simpl.
  - destruct (H11 Ep Eq) as (b & -> & ->).
    destruct o as [|o]; [|done]. by destruct j as [|j].
  - destruct (Hq1 Eq Ep) as (bs & -> & ->). simpl.
    rewrite list_lookup_fmap. destruct (bs !! o) as [b|]; simpl.
    + by destruct j as [|j].
    + by destruct j.
  - destruct (Hp1 Ep Eq) as (bs & -> & ->). by destruct o as [|o].
  - rewrite (Hnn Ep Eq). simpl. rewrite list_lookup_fmap.
    by destruct (J !! o).
Qed.

(** X6.  [jacobian] never returns for an output without elements: after a
    successful call every output has at least one scalar. *)
Theorem jacobian_returns_nonempty_outputs func (inputs ins out outs : Val) ts
    cg au s w1 (res : Val) s' :
  _check_tensors (ExtErr := ExtErr) inputs "inputs" = inr ins ->
  func (seq_items ins) (world s) = (inr out, w1) ->
  _check_tensors (ExtErr := ExtErr) out "outputs" = inr outs ->
  seq_items outs = PTensor <$> ts ->
  jacobian func inputs cg au s = (inr res, s') ->
  Forall (fun t => 0 < tensor_len (reshape_flat t)) ts.
Proof.
  intros Hins Hf Houts Hts Hjac.
  apply jacobian_inr_table in Hjac as (q & p & J & Ht & _).
  destruct (jacobian_table_success _ _ _ _ _ _ _ _ _ Ht)
    as (ins' & out' & outs' & xs & ts' & w1' & RR & Hins' & Hf' & Houts'
        & _ & Hts' & -> & -> & Hq0 & _ & Hruns & _).
  rewrite Hins in Hins'. injection Hins' as <-.
  rewrite Hf in Hf'. injection Hf' as <- <-.
  rewrite Houts in Houts'. injection Houts' as <-.
  rewrite Hts in Hts'. apply (inj (fmap PTensor)) in Hts'. subst ts'.
  apply Forall_lookup. intros o t Ho.
  destruct (Forall3_lookup_l _ _ _ _ _ _ Hruns Ho) as (R & Jo & _ & _ & Hrun).
  destruct (output_run_blocks _ _ _ _ Hrun) as [HlenJo _].
  destruct (lookup_lt_is_Some_2 Jo 0) as [b Hb]; [lia|].
  destruct (output_run_slot _ _ _ _ _ _ Hrun Hb) as (_ & HR & _).
  destruct Hrun as (HlenR & _). rewrite <- HlenR.
  destruct R; [done|simpl; lia].
Qed.


(** *** A tuple of inputs and a list of inputs *)

Lemma same_outcome_lift {A} (r : Err + A) :
  same_outcome (lift r : Comp A) (lift r).
Proof. by intros s1 s2 Hw. Qed.

Lemma same_outcome_ret {A} (a : A) :
  same_outcome (ret a : Comp A) (ret a).
Proof. by intros s1 s2 Hw. Qed.

Lemma same_outcome_bind {A B} (m1 m2 : Comp A) (k1 k2 : A -> Comp B) :
  same_outcome m1 m2 -> (forall a, same_outcome (k1 a) (k2 a)) ->
  same_outcome (bind m1 k1) (bind m2 k2).
Proof.
  intros Hm Hk s1 s2 Hw. unfold bind. specialize (Hm s1 s2 Hw).
  destruct (m1 s1) as [[e1|a1] s1'], (m2 s2) as [[e2|a2] s2'];
    simpl in Hm; destruct Hm as [Hr Hw']; try done.
  - by injection Hr as <-.
  - injection Hr as <-. by apply Hk.
Qed.

Lemma same_outcome_for_each {A S} (xs : list A) (body1 body2 : A -> S -> Comp S) :
  (forall x acc, same_outcome (body1 x acc) (body2 x acc)) ->
  forall acc, same_outcome (for_each xs body1 acc) (for_each xs body2 acc).
Proof.
  intros Hbody. induction xs as [|x xs IH]; intros acc; simpl.
  - apply same_outcome_ret.
  - apply same_outcome_bind; [apply Hbody|apply IH].
Qed.

Lemma same_outcome_append_row q row acc :
  same_outcome (append_row q row acc : Comp _) (append_row q row acc).
Proof.
  unfold append_row. generalize (seq 0 q). intros js. revert acc.
  apply same_outcome_for_each. intros j acc.
  apply same_outcome_bind; [apply same_outcome_lift|].
  intros x. apply same_outcome_ret.
Qed.

Lemma same_outcome_call_grad (c c' : GradCall Tensor) :
  (forall w, grad c w = grad c' w) ->
  same_outcome (call_grad c) (call_grad c').
Proof.
  intros Hg s1 s2 Hw. unfold call_grad. rewrite Hg, Hw.
  by destruct (grad c' (world s2)) as [[e|row] w].
Qed.

Lemma same_outcome_jacobian_of_output (ins1 ins2 : Val) q cg au flat J :
  reads_items_only Tensor World ExtErr ->
  seq_items ins1 = seq_items ins2 ->
  same_outcome (jacobian_of_output ins1 q cg au flat J)
               (jacobian_of_output ins2 q cg au flat J).
Proof.
  intros Heng Hitems. unfold jacobian_of_output.
  apply same_outcome_bind.
  - unfold collect_rows. apply same_outcome_for_each. intros k acc.
    apply same_outcome_bind; [|intros row; apply same_outcome_append_row].
    apply same_outcome_call_grad. intros w. by apply Heng.
  - intros jac. apply same_outcome_bind; [apply same_outcome_lift|].
    intros blocks. apply same_outcome_ret.
Qed.

(** X8.  With an engine that reads its inputs through their elements
    only, passing the inputs as a tuple or as a list makes no difference:
    the two calls end with the same result or the same exception, and
    leave the same world. *)
Theorem jacobian_tuple_or_list func (xs : list Val) cg au s :
  reads_items_only Tensor World ExtErr ->
  fst (jacobian func (PTuple xs) cg au s)
  = fst (jacobian func (PList xs) cg au s) /\
  world (snd (jacobian func (PTuple xs) cg au s))
  = world (snd (jacobian func (PList xs) cg au s)).
Proof.
  intros Heng.
  assert (same_outcome (jacobian func (PTuple xs) cg au)
                       (jacobian func (PList xs) cg au)) as Hsame;
    [|by apply Hsame].
  unfold jacobian. apply same_outcome_bind;
    [|intros [[q p] J]; apply same_outcome_lift].
  unfold jacobian_table. unfold bind at 1 6, lift at 1 5. simpl.
  destruct (length xs =? 0); [by intros s1 s2 Hw|].
  destruct (forallb is_tensor xs); [|by intros s1 s2 Hw].
  intros s1 s2 Hw. revert s1 s2 Hw.
  change (same_outcome
    (bind (call_func func xs) (fun out =>
       bind (lift (_check_tensors out "outputs")) (fun outputs =>
         bind (lift (try_map py_reshape_flat (seq_items outputs)))
           (fun flat_outputs =>
              bind (for_each flat_outputs
                      (jacobian_of_output (PTuple xs) (length xs) cg au) [])
                   (fun jacobian =>
                      ret (length xs, length (seq_items outputs), jacobian))))))
    (bind (call_func func xs) (fun out =>
       bind (lift (_check_tensors out "outputs")) (fun outputs =>
         bind (lift (try_map py_reshape_flat (seq_items outputs)))
           (fun flat_outputs =>
              bind (for_each flat_outputs
                      (jacobian_of_output (PList xs) (length xs) cg au) [])
                   (fun jacobian =>
                      ret (length xs, length (seq_items outputs), jacobian))))))).
  apply same_outcome_bind.
  { intros s1 s2 Hw. unfold call_func. rewrite Hw.
    by destruct (func xs (world s2)) as [[e|v] w]. }
  intros out. apply same_outcome_bind; [apply same_outcome_lift|].
  intros outputs. apply same_outcome_bind; [apply same_outcome_lift|].
  intros flats. apply same_outcome_bind; [|intros; apply same_outcome_ret].
  apply same_outcome_for_each. intros flat J.
  by apply same_outcome_jacobian_of_output.
Qed.

End JacobianLog.

Section JacobianStack.
Context {Tensor World ExtErr : Type}.
Context `{!TensorLib Tensor ExtErr, !GradEngine Tensor World ExtErr}.
Context `{!TensorLibSpec Tensor ExtErr}.

Local Abbreviation Val := (PyVal Tensor).
Local Abbreviation State := (St Tensor World ExtErr).

Implicit Types (s : State) (R : list (list Val)) (row : list Val).


End JacobianStack.

(** * Further properties of the leaky_relu conversion test *)

Module LeakyReluMore.
Import LeakyRelu.

Section Harness.
Context {OpConfig InferenceConfig : Type}.
Variable generate_op_config : list OpsConfigEntry -> list OpConfig.
Variable attrs_of : OpConfig -> Dict AttrVal.
Variable create_inference_config : TestState -> InferenceConfig.

Lemma program_config_for_inj :
  Inj (=) (=) generate_op_config ->
  Inj (=) (=) (fun ax : Q * Q =>
                 program_config_for generate_op_config (fst ax) (snd ax)).
Proof.
  intros Hinj [a x] [a' x'] H. apply (f_equal ops) in H. simpl in H.
  apply Hinj in H. by injection H as -> ->.
Qed.

Lemma sweep_NoDup : NoDup (list_prod alphas X_scales).
Proof.
  unfold alphas, X_scales. simpl.
  repeat (apply NoDup_cons; split;
          [intros H;
           repeat (apply elem_of_cons in H as [H|H]; [discriminate H|]);
           by apply elem_of_nil in H|]).
  apply NoDup_nil_2.
Qed.

(** X11.  The sweep has no repetition: if [generate_op_config] keeps
    different operator configurations apart, the 25 program configurations
    are pairwise different. *)
Theorem sample_program_configs_NoDup :
  Inj (=) (=) generate_op_config ->
  NoDup (sample_program_configs generate_op_config).
Proof.
  intros Hinj.
  change (NoDup ((fun ax : Q * Q =>
                    program_config_for generate_op_config (fst ax) (snd ax))
                 <$> list_prod alphas X_scales)).
  apply (NoDup_fmap_2 _ (Inj0 := program_config_for_inj Hinj)).
  apply sweep_NoDup.
Qed.

End Harness.

Lemma sample_program_configs_NoDup_witness :
  Inj (=) (=) (fun ops : list OpsConfigEntry => ops) /\
  NoDup (sample_program_configs (fun ops : list OpsConfigEntry => ops)).
Proof.
  assert (Inj (=) (=) (fun ops : list OpsConfigEntry => ops)) as Hinj
    by (by intros x y H).
  split; [exact Hinj|]. apply (sample_program_configs_NoDup _ Hinj).
Defined.

End LeakyReluMore.

(** * The further properties at the third docstring example *)

Module MoreWitnesses.
Import Sym SymFacts.

Lemma sym_reads_items_only : reads_items_only tensor unit string.
Proof.
  intros c c' w Hout Hitems _ _ Hau. simpl. by rewrite Hout, Hitems, Hau.
Qed.

Lemma check_tensors_idempotent_witness :
  _check_tensors (ExtErr := string) (PTensor (ones22 0)) "inputs"
    = inr (PList [PTensor (ones22 0)]) /\
  _check_tensors (ExtErr := string) (PList [PTensor (ones22 0)]) "outputs"
    = inr (PList [PTensor (ones22 0)]).
Proof.
  split; [reflexivity|].
  apply (check_tensors_idempotent (ExtErr := string) (PTensor (ones22 0))
           (PList [PTensor (ones22 0)]) "inputs" "outputs").
  reflexivity.
Defined.

Lemma jacobian_invokes_after_validation_witness :
  trace (snd (jacobian func_pair inputs_xy false false st0)) <> trace st0 /\
  exists ins out outs w1,
    _check_tensors (ExtErr := string) inputs_xy "inputs" = inr ins /\
    func_pair (seq_items ins) (world st0) = (inr out, w1) /\
    _check_tensors (ExtErr := string) out "outputs" = inr outs.
Proof.
  assert (trace (snd (jacobian func_pair inputs_xy false false st0))
          <> trace st0) as Hgrew by (vm_compute; discriminate).
  split; [exact Hgrew|].
  exact (jacobian_invokes_after_validation func_pair inputs_xy false false
           st0 Hgrew).
Defined.

Lemma jacobian_log_prefix_witness :
  exists new,
    trace (snd (jacobian func_pair inputs_xy false false st0))
    = trace st0 ++ new /\
    inv_call <$> new
      `prefix_of` schedule inputs_xy false false
                    [MatMul (ones22 0) (twos22 1); Mul (ones22 0) (ones22 0)].
Proof.
  apply (jacobian_log_prefix func_pair inputs_xy inputs_xy outputs_pair
           outputs_pair
           [MatMul (ones22 0) (twos22 1); Mul (ones22 0) (ones22 0)]
           false false st0 tt); reflexivity.
Defined.

Lemma jacobian_slot_round_trip_witness :
  result_slot 2 2 jacobian_pair 1 0
  = Some (PTensor (Const [4; 4] [2; 0; 0; 0; 0; 2; 0; 0;
                                 0; 0; 2; 0; 0; 0; 0; 2]%Z)).
Proof.
  rewrite (jacobian_slot_round_trip func_pair inputs_xy false true st0 2 2
             (seq_items <$> seq_items jacobian_pair)
             (snd (jacobian_table func_pair inputs_xy false true st0))
             jacobian_pair
             (snd (jacobian func_pair inputs_xy false true st0)));
    [reflexivity|vm_compute; reflexivity|vm_compute; reflexivity].
Defined.

Lemma jacobian_returns_nonempty_outputs_witness :
  Forall (fun t => 0 < tensor_len (reshape_flat t))
         [MatMul (ones22 0) (twos22 1); Mul (ones22 0) (ones22 0)].
Proof.
  apply (jacobian_returns_nonempty_outputs func_pair inputs_xy inputs_xy
           outputs_pair outputs_pair
           [MatMul (ones22 0) (twos22 1); Mul (ones22 0) (ones22 0)]
           false true st0 tt jacobian_pair
           (snd (jacobian func_pair inputs_xy false true st0)));
    [reflexivity|reflexivity|reflexivity|reflexivity|vm_compute; reflexivity].
Defined.


Lemma jacobian_tuple_or_list_witness :
  fst (jacobian func_pair
         (PTuple [PTensor (ones22 0); PTensor (twos22 1)]) false true st0)
  = inr jacobian_pair.
Proof.
  destruct (jacobian_tuple_or_list func_pair
              [PTensor (ones22 0); PTensor (twos22 1)] false true st0
              sym_reads_items_only) as [-> _].
  vm_compute. reflexivity.
Defined.


End MoreWitnesses.

(** * The absence marker and the local errors, as the code has them *)

Section JacobianFirstRow.
Context {Tensor World ExtErr : Type}.
Context `{!TensorLib Tensor ExtErr, !GradEngine Tensor World ExtErr}.

Local Abbreviation Val := (PyVal Tensor).
Local Abbreviation Err := (Exn ExtErr).
Local Abbreviation State := (St Tensor World ExtErr).

Implicit Types (s : State) (R : list (list Val)) (row : list Val).



End JacobianFirstRow.

Section JacobianDecorated.
Context {Tensor World ExtErr : Type}.
Context `{!TensorLib Tensor ExtErr, !GradEngine Tensor World ExtErr}.
Context `{!Framework World}.

Local Abbreviation Val := (PyVal Tensor).
Local Abbreviation Err := (Exn ExtErr).
Local Abbreviation State := (St Tensor World ExtErr).

Implicit Types (s : State).

Lemma jacobian_dygraph_only_imperative func (inputs : Val) cg au s :
  in_dygraph_mode (world s) = true ->
  jacobian_dygraph_only func inputs cg au s = jacobian func inputs cg au s.
Proof. intros Hmode. unfold jacobian_dygraph_only, dygraph_only. by rewrite Hmode. Qed.

Lemma jacobian_dygraph_only_static func (inputs : Val) cg au s :
  in_dygraph_mode (world s) = false ->
  jacobian_dygraph_only func inputs cg au s
  = (inl (AssertionError (dygraph_only_msg "jacobian")), s).
Proof. intros Hmode. unfold jacobian_dygraph_only, dygraph_only. by rewrite Hmode. Qed.

(** C5, amended.  Outside imperative mode the guard of [dygraph_only]
    raises an assertion error before the body runs.  In imperative mode
    [jacobian] raises an assertion error, before anything is
    differentiated, when [inputs] or the value returned by [func] is an
    empty list or tuple, has an element that is not a tensor, or is
    neither a tensor nor a list or tuple ([None] included).  The only
    other assertion error of its own is that of
    [_stack_tensor_or_return_none], which takes an output without
    elements.  Every other exception is propagated from [func], the engine
    or the tensor library, or is the [IndexError] of a row that the engine
    returned with fewer entries than there are inputs.  (Of the library's
    operations, [paddle.stack] is the one whose preconditions the code
    does not establish itself: flattening a tensor, the length of a
    flattened tensor and indexing below that length cannot fail.) *)
Theorem jacobian_local_errors func (inputs : Val) cg au s :
  (in_dygraph_mode (world s) = false ->
   jacobian_dygraph_only func inputs cg au s
   = (inl (AssertionError (dygraph_only_msg "jacobian")), s))
  /\
  (in_dygraph_mode (world s) = true ->
   empty_collection inputs \/ has_non_tensor inputs \/
   not_a_collection inputs ->
   exists msg, jacobian_dygraph_only func inputs cg au s
               = (inl (AssertionError msg), s))
  /\
  (in_dygraph_mode (world s) = true ->
   forall (ins out : Val) w1,
     _check_tensors (ExtErr := ExtErr) inputs "inputs" = inr ins ->
     func (seq_items ins) (world s) = (inr out, w1) ->
     empty_collection out \/ has_non_tensor out \/ not_a_collection out ->
     exists msg, jacobian_dygraph_only func inputs cg au s
                 = (inl (AssertionError msg), mkSt w1 (trace s)))
  /\
  (forall (e : Err) s',
     jacobian_dygraph_only func inputs cg au s = (inl e, s') ->
     (exists origin err, e = Propagated origin err) \/
     (e = IndexError /\
      exists ins : Val,
        _check_tensors (ExtErr := ExtErr) inputs "inputs" = inr ins /\
        short_row ins (length (seq_items ins))) \/
     (exists msg, e = AssertionError msg /\
        ((in_dygraph_mode (world s) = false /\
          msg = dygraph_only_msg "jacobian") \/
         (in_dygraph_mode (world s) = true /\
          ((empty_collection inputs \/ has_non_tensor inputs \/
            not_a_collection inputs) \/
           (exists (ins out : Val) w1,
              _check_tensors (ExtErr := ExtErr) inputs "inputs" = inr ins /\
              func (seq_items ins) (world s) = (inr out, w1) /\
              (empty_collection out \/ has_non_tensor out \/
               not_a_collection out)) \/
           (msg = "Can't not stack an empty list"%string /\
            exists (ins out outs : Val) w1 t,
              _check_tensors (ExtErr := ExtErr) inputs "inputs" = inr ins /\
              func (seq_items ins) (world s) = (inr out, w1) /\
              _check_tensors (ExtErr := ExtErr) out "outputs" = inr outs /\
              PTensor t ∈ seq_items outs /\
              tensor_len (reshape_flat t) = 0)))))).
Proof.
  destruct (jacobian_body_errors func inputs cg au s) as (Hin & Hout & Honly).
  split_and!.
  - apply jacobian_dygraph_only_static.
  - intros Hmode Hbad. rewrite jacobian_dygraph_only_imperative by done.
    by apply Hin.
  - intros Hmode ins out w1 Hins Hf Hbad.
    rewrite jacobian_dygraph_only_imperative by done. by eapply Hout.
  - intros e s'. destruct (in_dygraph_mode (world s)) eqn:Hmode.
    + rewrite jacobian_dygraph_only_imperative by done. intros Hjac.
      destruct (Honly e s' Hjac) as [?|[?|(msg & -> & Hmsg)]];
        [by left|by right; left|].
      right; right. exists msg. split; [done|]. right. by split.
    + rewrite jacobian_dygraph_only_static by done. intros [= <- <-].
      right; right. eexists. split; [done|]. left. by split.
Qed.

End JacobianDecorated.

Module AsTheCodeHasThem.
Import Sym SymFacts.



Lemma jacobian_local_errors_witness :
  (jacobian_dygraph_only (Framework0 := static_framework)
     func_square (PTensor (ones22 0)) false false st0
   = (inl (AssertionError (dygraph_msg "jacobian")), st0)) /\
  exists msg,
    jacobian_dygraph_only func_square PNone false false st0
    = (inl (AssertionError msg), st0).
Proof.
  split.
  - destruct (jacobian_local_errors (Framework0 := static_framework)
                func_square (PTensor (ones22 0)) false false st0)
      as (Hstatic & _).
    apply Hstatic. reflexivity.
  - destruct (jacobian_local_errors func_square PNone false false st0)
      as (_ & Hrejects & _).
    apply Hrejects; [reflexivity|]. right; right. by left.
Defined.

End AsTheCodeHasThem.
